(** * RedisSchedulerModule: a shallow embedding of
      [src/memos/mem_scheduler/modules/redis_service.py]

    The module keeps one connection to a Redis server, appends messages to
    the stream ["user:queries:stream"], and runs a background listener that
    reads the stream with a blocking [XREAD] and hands every entry to a
    handler.

    Python's exceptions and attribute updates are modelled by a state and
    error monad [M] over the record [sys]: the attributes of the module
    instance ([self]), the Redis server the connection talks to, the threads
    created so far, and the trace of effects (log lines, [print], sleeps,
    commands sent, handler calls), oldest first.  An exception keeps the
    state reached when it was raised, as in Python. *)

From Stdlib Require Import List String ZArith Bool Arith Lia Sorted.
Import ListNotations.
Open Scope string_scope.
Open Scope nat_scope.
Open Scope list_scope.

(** ** Values *)

(** A message is a [dict] of strings; Python keeps insertion order. *)
Definition message := list (string * string).

(** The exceptions the module meets: [redis.ConnectionError], the
    [AttributeError] of a method call on [None], and any other subclass of
    [Exception], by class name.  These are the exceptions that the
    [except Exception] clauses of the module catch.  What is raised outside
    [Exception] ([KeyboardInterrupt], [SystemExit],
    [asyncio.CancelledError]) is caught by no clause of the module and is
    not modelled: a handler of the model raises within [Exception]. *)
Inductive exn :=
| ConnectionError (msg : string)
| AttributeError (msg : string)
| Exception (cls msg : string).

Definition exn_class (e : exn) : string :=
  match e with
  | ConnectionError _ => "ConnectionError"
  | AttributeError _ => "AttributeError"
  | Exception cls _ => cls
  end.

Definition is_ConnectionError (e : exn) : bool :=
  match e with ConnectionError _ => true | _ => false end.

(** Entry identifiers are assigned by the server and strictly increase; the
    model keeps their rank.  [last_id] is either the sentinel ["$"] or the
    identifier of an entry. *)
Definition entry_id := nat.
Definition entry := (entry_id * message)%type.

Inductive cursor := Dollar | At (i : entry_id).

Definition stream_key : string := "user:queries:stream".

(** The client object built by [redis.Redis(host=..., port=..., db=...,
    decode_responses=True)]. *)
Record Redis := { host : string; port : Z; db : Z }.

(** ** Effects *)

Inductive level := DEBUG | INFO | WARNING | ERROR.

(** One constructor per logging call of the source, with the values its
    f-string interpolates. *)
Inductive log_msg :=
| Connecting (h : string) (p d : Z)       (* "Connecting to Redis at {h}:{p}/{d}" *)
| Connection_failed                      (* "Redis connection failed" *)
| Connection_error (e : exn)             (* "Redis connection error: {e}" *)
| Add_message_stream (m : message)       (* "add_message_stream: {m}" *)
| Consume_message_stream (m : message)   (* "consume_message_stream: {m}" *)
| Listener_thread_error (e : exn)        (* "Listener thread error: {e}" *)
| Error_processing (i : entry_id) (e : exn) (* "Error processing message {i}: {e}" *)
| Unexpected_error (e : exn)             (* "Unexpected error: {e}" *)
| Already_running                        (* "Listener is already running" *)
| Started_listener                       (* "Started Redis stream listener thread" *)
| Not_graceful                           (* "Listener thread did not stop gracefully" *)
| Listener_stopped.                      (* "Redis stream listener stopped" *)

(** Commands sent through a client object. *)
Inductive command :=
| PING
| XTRIM (key : string) (maxlen : Z) (approximate : bool)
| XADD (key : string) (m : message)
| XREAD (key : string) (last_id : cursor) (count : nat) (block : Z)
| CLOSE.

Inductive event :=
| Log (l : level) (m : log_msg)
| Print (data : message)                 (* print(f"deal with message_data {data}") *)
| Sleep (seconds : nat)                  (* await asyncio.sleep(seconds) *)
| Cmd (c : command)
| Handle (i : entry_id) (data : message) (* await handler(data), for entry i *)
| Join (tid : nat).                      (* thread.join(timeout=5.0) *)

(** A handler is user code: it may keep state of its own, so its behaviour
    is a function of the messages it was given before and of the current
    one.  It writes log lines of its own and returns, or raises. *)
Definition Handler := list message -> message -> list (level * log_msg) * option exn.

(** ** The Redis server (external) *)

(** Modelled from the spec: the stream store, an external service that the
    module reaches through the [redis] package (store contract: append,
    trim, blocking range read, liveness probe).  The server the connection
    talks to: whether it can be reached, whether it answers [PING] with
    [PONG], the entries of the stream in increasing order of identifier, and
    the last identifier it generated.  A server keeps a stream in nodes of
    several entries; [whole_nodes l n] is the number of oldest entries of
    the stream [l] that lie in nodes which an approximate trim to [n] may
    drop whole. *)
Record redis_server := {
  reachable : bool;
  pong : bool;
  entries : list entry;
  last_generated : entry_id;
  whole_nodes : list entry -> nat -> nat;
}.

Definition set_entries (l : list entry) (g : entry_id) (sv : redis_server) :=
  {| reachable := reachable sv; pong := pong sv;
     entries := l; last_generated := g; whole_nodes := whole_nodes sv |}.

Definition set_reachable (b : bool) (sv : redis_server) :=
  {| reachable := b; pong := pong sv;
     entries := entries sv; last_generated := last_generated sv;
     whole_nodes := whole_nodes sv |}.

(** The most recent [n] elements. *)
Definition lastn {A} (n : nat) (l : list A) : list A := skipn (List.length l - n) l.

(** Modelled from the spec: [trim(stream_key, max_len)] drops the oldest
    entries beyond [max_len].  [XTRIM key MAXLEN n] drops the oldest entries
    and keeps the most recent [n]; [XTRIM key MAXLEN ~ n], the approximate
    trim, drops whole nodes only and none that would leave fewer than [n]
    entries, so it may keep more than [n].  [dropped] is the number of
    entries a trim drops. *)
Definition dropped (approximate : bool) (n : nat) (sv : redis_server) : nat :=
  let excess := List.length (entries sv) - n in
  if approximate
  then Nat.min (whole_nodes sv (entries sv) n) excess
  else excess.

Definition server_xtrim (approximate : bool) (n : nat) (sv : redis_server)
    : nat * redis_server :=
  (dropped approximate n sv,
   set_entries (skipn (dropped approximate n sv) (entries sv))
     (last_generated sv) sv).

(** Modelled from the spec: [append(stream_key, fields) -> id];
    [XADD key * fields] puts the entry after all others, under the next
    identifier. *)
Definition server_xadd (m : message) (sv : redis_server) : entry_id * redis_server :=
  let i := S (last_generated sv) in
  (i, set_entries (entries sv ++ [(i, m)]) i sv).

(** Modelled from the spec: [blocking_range_read(stream_key, after_id,
    count, block_ms)] returns the entries after a cursor; ["$"] stands for
    the last identifier the server generated at the time of the call. *)
Definition resolve (sv : redis_server) (c : cursor) : entry_id :=
  match c with Dollar => last_generated sv | At i => i end.

Definition after (i : entry_id) (l : list entry) : list entry :=
  filter (fun e => i <? fst e) l.

(** What happens while an [XREAD ... BLOCK] waits with nothing to return:
    the wait times out, another client appends an entry, or the connection
    is lost. *)
Inductive block_event :=
| Timeout
| Arrival (m : message)
| Disconnect.

(** ** The system *)

(** The attributes [__init__] sets on the instance. *)
Record RedisSchedulerModule := {
  redis_host : option string;
  redis_port : option Z;
  redis_db : option Z;
  _redis_conn : option Redis;
  query_list_capacity : Z;
  _redis_listener_running : bool;
  _redis_listener_thread : option nat;
  _redis_listener_loop : option nat;
}.

(** A [threading.Thread] running [_redis_run_listener_async(handler)]:
    whether it is alive, its handler, whether its target has begun, and the
    [last_id] of its listener coroutine. *)
Record thread := {
  alive : bool;
  target : Handler;
  begun : bool;
  position : cursor;
}.

Record sys := {
  self : RedisSchedulerModule;
  server : redis_server;
  ctor_fault : option exn;   (* what redis.Redis(...) raises, if anything *)
  threads : list thread;     (* by thread number *)
  loops : nat;               (* event loops created so far *)
  trace : list event;
}.

Definition with_self (f : RedisSchedulerModule -> RedisSchedulerModule) (s : sys) : sys :=
  {| self := f (self s); server := server s; ctor_fault := ctor_fault s;
     threads := threads s; loops := loops s; trace := trace s |}.

Definition with_server (f : redis_server -> redis_server) (s : sys) : sys :=
  {| self := self s; server := f (server s); ctor_fault := ctor_fault s;
     threads := threads s; loops := loops s; trace := trace s |}.

Definition with_threads (f : list thread -> list thread) (s : sys) : sys :=
  {| self := self s; server := server s; ctor_fault := ctor_fault s;
     threads := f (threads s); loops := loops s; trace := trace s |}.

Definition with_loops (f : nat -> nat) (s : sys) : sys :=
  {| self := self s; server := server s; ctor_fault := ctor_fault s;
     threads := threads s; loops := f (loops s); trace := trace s |}.

Definition emits (l : list event) (s : sys) : sys :=
  {| self := self s; server := server s; ctor_fault := ctor_fault s;
     threads := threads s; loops := loops s; trace := trace s ++ l |}.

Definition set_address (h : string) (p d : Z) (m : RedisSchedulerModule) :=
  {| redis_host := Some h; redis_port := Some p; redis_db := Some d;
     _redis_conn := _redis_conn m;
     query_list_capacity := query_list_capacity m;
     _redis_listener_running := _redis_listener_running m;
     _redis_listener_thread := _redis_listener_thread m;
     _redis_listener_loop := _redis_listener_loop m |}.

Definition set_conn (c : option Redis) (m : RedisSchedulerModule) :=
  {| redis_host := redis_host m; redis_port := redis_port m; redis_db := redis_db m;
     _redis_conn := c;
     query_list_capacity := query_list_capacity m;
     _redis_listener_running := _redis_listener_running m;
     _redis_listener_thread := _redis_listener_thread m;
     _redis_listener_loop := _redis_listener_loop m |}.

Definition set_capacity (c : Z) (m : RedisSchedulerModule) :=
  {| redis_host := redis_host m; redis_port := redis_port m; redis_db := redis_db m;
     _redis_conn := _redis_conn m;
     query_list_capacity := c;
     _redis_listener_running := _redis_listener_running m;
     _redis_listener_thread := _redis_listener_thread m;
     _redis_listener_loop := _redis_listener_loop m |}.

Definition set_running (b : bool) (m : RedisSchedulerModule) :=
  {| redis_host := redis_host m; redis_port := redis_port m; redis_db := redis_db m;
     _redis_conn := _redis_conn m;
     query_list_capacity := query_list_capacity m;
     _redis_listener_running := b;
     _redis_listener_thread := _redis_listener_thread m;
     _redis_listener_loop := _redis_listener_loop m |}.

Definition set_thread (t : option nat) (m : RedisSchedulerModule) :=
  {| redis_host := redis_host m; redis_port := redis_port m; redis_db := redis_db m;
     _redis_conn := _redis_conn m;
     query_list_capacity := query_list_capacity m;
     _redis_listener_running := _redis_listener_running m;
     _redis_listener_thread := t;
     _redis_listener_loop := _redis_listener_loop m |}.

Definition set_loop (l : option nat) (m : RedisSchedulerModule) :=
  {| redis_host := redis_host m; redis_port := redis_port m; redis_db := redis_db m;
     _redis_conn := _redis_conn m;
     query_list_capacity := query_list_capacity m;
     _redis_listener_running := _redis_listener_running m;
     _redis_listener_thread := _redis_listener_thread m;
     _redis_listener_loop := l |}.

(** ** The monad of module code *)

Inductive res (A : Type) :=
| Ok (a : A)
| Raise (e : exn).
Arguments Ok {A} a.
Arguments Raise {A} e.

Definition M (A : Type) : Type := sys -> res A * sys.

Definition ret {A} (a : A) : M A := fun s => (Ok a, s).

Definition raise {A} (e : exn) : M A := fun s => (Raise e, s).

Definition bind {A B} (m : M A) (k : A -> M B) : M B :=
  fun s =>
    match m s with
    | (Ok a, s') => k a s'
    | (Raise e, s') => (Raise e, s')
    end.

Notation "x <- m ;; k" := (bind m (fun x => k))
  (at level 61, m at next level, right associativity).
Notation "m ;;; k" := (bind m (fun _ => k))
  (at level 61, right associativity).

(** [try: body / except ...: h]: [h e] is [None] when no clause matches. *)
Definition try_except {A} (body : M A) (h : exn -> option (M A)) : M A :=
  fun s =>
    match body s with
    | (Ok a, s') => (Ok a, s')
    | (Raise e, s') =>
        match h e with
        | Some k => k s'
        | None => (Raise e, s')
        end
    end.

Definition modify (f : sys -> sys) : M unit := fun s => (Ok tt, f s).

Definition get {A} (f : sys -> A) : M A := fun s => (Ok (f s), s).

Definition emit (e : event) : M unit := modify (emits [e]).

Definition logger (l : level) (m : log_msg) : M unit := emit (Log l m).

Definition sleep (n : nat) : M unit := emit (Sleep n).

(** ** Calls on the connection attribute *)

(** A method call on the connection attribute: on [None], Python raises
    [AttributeError]. *)
Definition on_None (name : string) : exn :=
  AttributeError ("'NoneType' object has no attribute '" ++ name ++ "'")%string.

Definition method {A} (name : string) (c : option Redis) (k : Redis -> M A) : M A :=
  match c with
  | Some r => k r
  | None => raise (on_None name)
  end.

Definition unreachable : exn := ConnectionError "Error connecting to server".
Definition lost : exn := ConnectionError "Connection closed by server.".

(** A command sent to the server: it raises [redis.ConnectionError] when the
    server cannot be reached. *)
Definition send {A} (c : command) (f : redis_server -> A * redis_server) : M A :=
  emit (Cmd c) ;;;
  fun s =>
    if reachable (server s)
    then let (a, sv) := f (server s) in (Ok a, with_server (fun _ => sv) s)
    else (Raise unreachable, s).

(** [redis.Redis(...)]. *)
Definition Redis_new (h : string) (p d : Z) : M Redis :=
  fun s =>
    match ctor_fault s with
    | Some e => (Raise e, s)
    | None => (Ok {| host := h; port := p; db := d |}, s)
    end.

Definition ping (r : Redis) : M bool :=
  send PING (fun sv => (pong sv, sv)).

(** [xtrim(name, maxlen, approximate=True)]: the trim is approximate unless
    the caller says otherwise.  A negative [MAXLEN] is refused by the
    server. *)
Definition xtrim (r : Redis) (key : string) (maxlen : Z) (approximate : bool)
    : M nat :=
  if (maxlen <? 0)%Z
  then emit (Cmd (XTRIM key maxlen approximate)) ;;;
       raise (Exception "ResponseError" "The MAXLEN argument must be >= 0.")
  else send (XTRIM key maxlen approximate)
         (server_xtrim approximate (Z.to_nat maxlen)).

Definition approximate_default : bool := true.

Definition empty_fields : exn :=
  Exception "DataError" "XADD fields must be a non-empty dict".

(** [xadd(name, fields)]: the client refuses an empty [fields] before it
    sends anything. *)
Definition xadd (r : Redis) (key : string) (m : message) : M entry_id :=
  match m with
  | [] => raise empty_fields
  | _ :: _ => send (XADD key m) (server_xadd m)
  end.

(** [xread({key: last_id}, count=count, block=block)]: the entries after
    the cursor, at most [count]; with none, the call waits and [during] says
    how the wait ends.  The reply lists each stream with its entries; it is
    empty on a timeout. *)
Definition xread (r : Redis) (key : string) (last_id : cursor) (count : nat)
    (block : Z) (during : block_event) : M (list (string * list entry)) :=
  emit (Cmd (XREAD key last_id count block)) ;;;
  fun s =>
    let sv := server s in
    if reachable sv then
      match firstn count (after (resolve sv last_id) (entries sv)) with
      | e :: l => (Ok [(key, e :: l)], s)
      | [] =>
          match during with
          | Timeout => (Ok [], s)
          | Arrival m =>
              let (i, sv') := server_xadd m sv in
              (Ok [(key, [(i, m)])], with_server (fun _ => sv') s)
          | Disconnect =>
              (Raise lost, with_server (set_reachable false) s)
          end
      end
    else (Raise unreachable, s).

Definition close (r : Redis) : M unit := emit (Cmd CLOSE).

(** ** The module *)

(** The instance [__init__] builds. *)
Definition __init__ : RedisSchedulerModule :=
  {| redis_host := None; redis_port := None; redis_db := None;
     _redis_conn := None;
     query_list_capacity := 1000;
     _redis_listener_running := false;
     _redis_listener_thread := None;
     _redis_listener_loop := None |}.

Definition redis : M (option Redis) := get (fun s => _redis_conn (self s)).

Definition set_redis (value : option Redis) : M unit :=
  modify (with_self (set_conn value)).

Definition default_host : string := "localhost".
Definition default_port : Z := 6379.
Definition default_db : Z := 0.

Definition initialize_redis (h : string) (p d : Z) : M (option Redis) :=
  modify (with_self (set_address h p d)) ;;;
  try_except
    (logger DEBUG (Connecting h p d) ;;;
     r <- Redis_new h p d ;;
     set_redis (Some r) ;;;
     (* test conn *)
     c <- redis ;;
     ok <- method "ping" c ping ;;
     if negb ok then logger ERROR Connection_failed else ret tt)
    (fun e =>
       if is_ConnectionError e
       then Some (set_redis None ;;; logger ERROR (Connection_error e))
       else None) ;;;
  c <- redis ;;
  capacity <- get (fun s => query_list_capacity (self s)) ;;
  method "xtrim" c
    (fun r => xtrim r stream_key capacity approximate_default) ;;;
  redis.

Definition redis_add_message_stream (m : message) : M entry_id :=
  logger DEBUG (Add_message_stream m) ;;;
  c <- redis ;;
  method "xadd" c (fun r => xadd r stream_key m).

(** The default handler. *)
Definition redis_consume_message_stream : Handler :=
  fun _ m => ([(DEBUG, Consume_message_stream m)], None).

(** *** The listener *)

(** The messages handed to a handler so far. *)
Definition deliveries (t : list event) : list message :=
  flat_map (fun e => match e with Handle _ d => [d] | _ => [] end) t.

(** [await handler(message_data)], for the entry [message_id]. *)
Definition await (handler : Handler) (message_id : entry_id)
    (message_data : message) : M unit :=
  fun s =>
    let (out, r) := handler (deliveries (trace s)) message_data in
    let s' := emits (Handle message_id message_data
                     :: map (fun lm => Log (fst lm) (snd lm)) out) s in
    match r with
    | None => (Ok tt, s')
    | Some e => (Raise e, s')
    end.

(** The body of the inner [for]: the inner [try].  The result is the value
    of the local [last_id] after it. *)
Definition process (handler : Handler) (last_id : cursor) (e : entry) : M cursor :=
  let (message_id, message_data) := e in
  try_except
    (emit (Print message_data) ;;;
     await handler message_id message_data ;;;
     ret (At message_id))
    (fun e => Some (logger ERROR (Error_processing message_id e) ;;;
                    ret last_id)).

Fixpoint for_each {A S : Type} (l : list A) (body : S -> A -> M S) (acc : S) : M S :=
  match l with
  | [] => ret acc
  | x :: l' => acc' <- body acc x ;; for_each l' body acc'
  end.

(** One pass through the body of the [while]: the outer [try].  The read
    is the only statement of the outer [try] that can raise and it comes
    before any assignment to [last_id], so the handlers of the outer [try]
    leave [last_id] as it was when the pass began. *)
Definition iteration (handler : Handler) (block_time : Z) (during : block_event)
    (last_id : cursor) : M cursor :=
  try_except
    ((* Blocking read for new messages *)
     c <- redis ;;
     messages <- method "xread" c
       (fun r => xread r stream_key last_id 1 block_time during) ;;
     match messages with
     | [] => ret last_id
     | _ =>
         for_each messages
           (fun last_id sm => for_each (snd sm) (process handler) last_id)
           last_id
     end)
    (fun e =>
       if is_ConnectionError e
       then Some (logger ERROR (Connection_error e) ;;;
                  sleep 5 ;;;         (* Wait before reconnecting *)
                  set_redis None ;;;  (* Force reconnection *)
                  ret last_id)
       else Some (logger ERROR (Unexpected_error e) ;;;
                  sleep 1 ;;;
                  ret last_id)).

(** What other threads and clients do between two passes of the loop. *)
Inductive env_action :=
| Client_xadd (m : message)   (* another client appends an entry *)
| Server_up (b : bool)        (* the server becomes reachable or not *)
| Stop_request.               (* another thread clears the running flag *)

Definition env_apply (s : sys) (a : env_action) : sys :=
  match a with
  | Client_xadd m => with_server (fun sv => snd (server_xadd m sv)) s
  | Server_up b => with_server (set_reachable b) s
  | Stop_request => with_self (set_running false) s
  end.

(** The surroundings of one pass: what happens before the loop tests its
    flag, and how a blocked read ends. *)
Record tick := { before : list env_action; during : block_event }.

Inductive status := Looping | Exited.

(** The [while] loop over a schedule.  When the schedule ends, the loop is
    at its test: [Looping] if it would start another pass. *)
Fixpoint listen_loop (handler : Handler) (block_time : Z) (sched : list tick)
    (last_id : cursor) : M (status * cursor) :=
  match sched with
  | [] =>
      running <- get (fun s => _redis_listener_running (self s)) ;;
      ret (if running then Looping else Exited, last_id)
  | t :: sched' =>
      modify (fun s => fold_left env_apply (before t) s) ;;;
      running <- get (fun s => _redis_listener_running (self s)) ;;
      if running
      then last_id' <- iteration handler block_time (during t) last_id ;;
           listen_loop handler block_time sched' last_id'
      else ret (Exited, last_id)
  end.

Definition __redis_listen_query_stream (handler : Handler) (last_id : cursor)
    (block_time : Z) (sched : list tick) : M (status * cursor) :=
  modify (with_self (set_running true)) ;;;
  listen_loop handler block_time sched last_id.

(** The [except] and [finally] of [listener_wrapper], around a listener
    that has run as far as the schedule goes. *)
Definition finishing (body : M (status * cursor)) : M (status * cursor) :=
  r <- try_except body
         (fun e => Some (logger ERROR (Listener_thread_error e) ;;;
                         ret (Exited, Dollar))) ;;
  match fst r with
  | Exited => modify (with_self (set_running false))
  | Looping => ret tt
  end ;;;
  ret r.

Definition listener_wrapper (handler : Handler) (sched : list tick)
    : M (status * cursor) :=
  finishing (__redis_listen_query_stream handler Dollar 2000 sched).

Definition _redis_run_listener_async (handler : Handler) (sched : list tick)
    : M (status * cursor) :=
  n <- get loops ;;
  modify (with_loops S) ;;;
  modify (with_self (set_loop (Some n))) ;;;
  listener_wrapper handler sched.

(** *** Threads *)

Definition alive_at (tid : nat) (s : sys) : bool :=
  match nth_error (threads s) tid with
  | Some th => alive th
  | None => false
  end.

Definition is_alive (tid : nat) : M bool := get (alive_at tid).

Definition set_alive (b : bool) (th : thread) : thread :=
  {| alive := b; target := target th; begun := begun th;
     position := position th |}.

Fixpoint update {A} (n : nat) (f : A -> A) (l : list A) : list A :=
  match l, n with
  | [], _ => []
  | x :: l', O => f x :: l'
  | x :: l', S n' => x :: update n' f l'
  end.

Definition set_progress (st : status) (c : cursor) (th : thread) : thread :=
  {| alive := match st with Looping => true | Exited => false end;
     target := target th; begun := true; position := c |}.

(** What a thread runs next: its target from the start, or the loop of
    its listener from where it was. *)
Definition thread_body (th : thread) (sched : list tick) : M (status * cursor) :=
  if begun th
  then finishing (listen_loop (target th) 2000 sched (position th))
  else _redis_run_listener_async (target th) sched.

(** The thread [tid] runs for as long as the schedule lasts.  It dies when
    its target returns. *)
Definition thread_run (tid : nat) (sched : list tick) : M unit :=
  t <- get (fun s => nth_error (threads s) tid) ;;
  match t with
  | Some th =>
      if alive th then
        r <- thread_body th sched ;;
        modify (with_threads (update tid (set_progress (fst r) (snd r))))
      else ret tt
  | None => ret tt
  end.

(** [thread.join(timeout=5.0)]: the caller waits, five seconds at most,
    while the thread goes on.  [wait] is what the thread meets during the
    wait: the schedule it runs on, or [None] when it makes no step (it is
    inside a handler, say).  The thread has ended when the wait is over if
    its target has returned. *)
Definition join (tid : nat) (wait : option (list tick)) : M unit :=
  emit (Join tid) ;;;
  match wait with
  | Some sched => thread_run tid sched
  | None => ret tt
  end.

(** [self._redis_listener_thread and self._redis_listener_thread.is_alive()] *)
Definition listener_alive : M bool :=
  t <- get (fun s => _redis_listener_thread (self s)) ;;
  match t with
  | Some tid => is_alive tid
  | None => ret false
  end.

Definition redis_start_listening (handler : option Handler) : M unit :=
  a <- listener_alive ;;
  if a then logger WARNING Already_running
  else
    let handler := match handler with
                   | None => redis_consume_message_stream
                   | Some h => h
                   end in
    tid <- get (fun s => List.length (threads s)) ;;
    modify (with_self (set_thread (Some tid))) ;;;
    modify (with_threads (fun l =>
      l ++ [{| alive := true; target := handler; begun := false;
               position := Dollar |}])) ;;;
    logger INFO Started_listener.

Definition redis_stop_listening (wait : option (list tick)) : M unit :=
  modify (with_self (set_running false)) ;;;
  a <- listener_alive ;;
  (if a then
     t <- get (fun s => _redis_listener_thread (self s)) ;;
     match t with
     | Some tid =>
         join tid wait ;;;
         a' <- is_alive tid ;;
         if a' then logger WARNING Not_graceful else ret tt
     | None => ret tt
     end
   else ret tt) ;;;
  logger INFO Listener_stopped.

Definition redis_close : M unit :=
  c <- redis ;;
  match c with
  | Some r => close r ;;; set_redis None
  | None => ret tt
  end.

(** *** The instance and its worker, interleaved *)

(** What can happen to an instance: calls of its methods by the controlling
    thread, progress of a worker, and the surroundings. *)
Inductive action :=
| Call_initialize_redis (h : string) (p d : Z)
| Call_redis_add_message_stream (m : message)
| Call_redis_start_listening (handler : option Handler)
| Call_redis_stop_listening (wait : option (list tick))
| Call_redis_close
| Worker (tid : nat) (sched : list tick)
| Env (a : env_action).

(** An exception of a call goes to the caller; the instance keeps the state
    reached. *)
Definition step (s : sys) (a : action) : sys :=
  match a with
  | Call_initialize_redis h p d => snd (initialize_redis h p d s)
  | Call_redis_add_message_stream m => snd (redis_add_message_stream m s)
  | Call_redis_start_listening handler => snd (redis_start_listening handler s)
  | Call_redis_stop_listening wait => snd (redis_stop_listening wait s)
  | Call_redis_close => snd (redis_close s)
  | Worker tid sched => snd (thread_run tid sched s)
  | Env a => env_apply s a
  end.

Definition run (s : sys) (l : list action) : sys := fold_left step l s.

(** A fresh instance beside a server. *)
Definition fresh (sv : redis_server) (fault : option exn) : sys :=
  {| self := __init__; server := sv; ctor_fault := fault;
     threads := []; loops := 0; trace := [] |}.

(** ** Observations on traces *)

(** The entries handed to the handler, in order. *)
Definition handled (t : list event) : list entry :=
  flat_map (fun e => match e with Handle i d => [(i, d)] | _ => [] end) t.


(** The reads sent to the server. *)
Definition reads (t : list event) : list cursor :=
  flat_map (fun e => match e with
                     | Cmd (XREAD _ c _ _) => [c]
                     | _ => []
                     end) t.

Definition alive_threads (s : sys) : nat :=
  List.length (filter alive (threads s)).


(** ** The scenario handlers *)

Fixpoint message_eqb (a b : message) : bool :=
  match a, b with
  | [], [] => true
  | (k, v) :: a', (k', v') :: b' =>
      String.eqb k k' && String.eqb v v' && message_eqb a' b'
  | _, _ => false
  end.

(** A handler that raises on the message [bad], whenever it gets it, and
    returns on every other message. *)
Definition raises_on (bad : message) (e : exn) : Handler :=
  fun _ m => if message_eqb m bad then ([], Some e) else ([], None).

(** A handler that always returns. *)
Definition accepts : Handler := fun _ _ => ([], None).

(** ** The errors of calls on a null connection *)

Definition xtrim_on_None : exn := on_None "xtrim".
Definition xadd_on_None : exn := on_None "xadd".
Definition xread_on_None : exn := on_None "xread".

(** ** Notions used in the statements *)

(** The read the loop sends, and the entry a read finds ready. *)
Definition read_cmd (last_id : cursor) (block_time : Z) : event :=
  Cmd (XREAD stream_key last_id 1 block_time).

Definition ready (s : sys) (last_id : cursor) : option entry :=
  hd_error (after (resolve (server s) last_id) (entries (server s))).

(** What a pass of the loop leaves alone: every attribute except the
    connection, the threads, the event loops and the constructor's fault. *)
Definition frame (s s' : sys) : Prop :=
  self s' = set_conn (_redis_conn (self s')) (self s) /\
  threads s' = threads s /\
  loops s' = loops s /\
  ctor_fault s' = ctor_fault s.

Definition is_stop (a : env_action) : bool :=
  match a with Stop_request => true | _ => false end.

(** Whether a schedule holds a stop request. *)
Definition stops (sched : list tick) : bool :=
  existsb (fun t => existsb is_stop (before t)) sched.



(** What a pass logs and waits when the connection attribute is null. *)
Definition retry_lines : list event :=
  [Log ERROR (Unexpected_error xread_on_None); Sleep 1].

(** What the pass that loses the connection sends, logs and waits. *)
Definition disconnect_lines (last_id : cursor) (block_time : Z) : list event :=
  [read_cmd last_id block_time; Log ERROR (Connection_error lost); Sleep 5].

(** The thread the instance would start, and the state after starting it. *)
Definition new_thread (handler : option Handler) : thread :=
  {| alive := true;
     target := match handler with
               | None => redis_consume_message_stream
               | Some h => h
               end;
     begun := false; position := Dollar |}.

Definition spawned (handler : option Handler) (s : sys) : sys :=
  emits [Log INFO Started_listener]
    (with_threads (fun l => l ++ [new_thread handler])
       (with_self (set_thread (Some (List.length (threads s)))) s)).

(** Every live thread is the one the instance holds. *)
Definition single_listener (s : sys) : Prop :=
  forall tid th,
    nth_error (threads s) tid = Some th -> alive th = true ->
    _redis_listener_thread (self s) = Some tid.

(** The threads, and the thread the instance holds, are the same. *)
Definition same_threads (s s' : sys) : Prop :=
  threads s' = threads s /\
  _redis_listener_thread (self s') = _redis_listener_thread (self s).

(** ** Scenarios *)

(** A server that answers, one that cannot be reached, and one that answers
    [PING] with something else than [PONG]. *)
Definition idle_server : redis_server :=
  {| reachable := true; pong := true; entries := []; last_generated := 0;
     whole_nodes := fun _ _ => 0 |}.

Definition down_server : redis_server := set_reachable false idle_server.

Definition mute_server : redis_server :=
  {| reachable := true; pong := false; entries := []; last_generated := 0;
     whole_nodes := fun _ _ => 0 |}.

Definition hello : message := [("q", "hello")].
Definition world : message := [("q", "world")].
Definition one : message := [("n", "1")].
Definition two : message := [("n", "2")].
Definition three : message := [("n", "3")].

(** A server whose stream holds three entries, in one node. *)
Definition full_server : redis_server :=
  {| reachable := true; pong := true;
     entries := [(1, one); (2, two); (3, three)]; last_generated := 3;
     whole_nodes := fun _ _ => 0 |}.

(** The same stream on a server that keeps each entry in a node of its
    own. *)
Definition fine_server : redis_server :=
  {| reachable := true; pong := true;
     entries := [(1, one); (2, two); (3, three)]; last_generated := 3;
     whole_nodes := fun l _ => List.length l |}.

(** An instance connected to a server with the default address. *)
Definition connected (sv : redis_server) : sys :=
  snd (initialize_redis default_host default_port default_db (fresh sv None)).

Definition boom : exn := Exception "ValueError" "cannot handle entry 2".

(** Three entries arrive while the listener runs: the first two during a
    blocked read each, the third between two passes; four more passes
    follow. *)
Definition three_arrivals : list tick :=
  [ {| before := []; during := Arrival one |};
    {| before := []; during := Arrival two |};
    {| before := [Client_xadd three]; during := Timeout |};
    {| before := []; during := Timeout |};
    {| before := []; during := Timeout |};
    {| before := []; during := Timeout |} ].



(** After a lost connection the server comes back and entries arrive. *)
Definition server_returns : list tick :=
  [ {| before := [Server_up true; Client_xadd one]; during := Timeout |};
    {| before := [Client_xadd two]; during := Arrival three |};
    {| before := []; during := Timeout |} ].

(** An instance whose listener thread has been started. *)
Definition listening : sys := spawned None (fresh idle_server None).

(** ** Notions used in the further properties *)

(** A handler that returns on every message, whatever it has seen. *)
Definition returns_always (handler : Handler) : Prop :=
  forall hist m, snd (handler hist m) = None.

(** A stream as a server keeps it: identifiers strictly increase along the
    stream and none is beyond the last one generated. *)
Definition well_formed (sv : redis_server) : Prop :=
  StronglySorted (fun a b : entry => fst a < fst b) (entries sv) /\
  Forall (fun e : entry => fst e <= last_generated sv) (entries sv).

(** What the loop leaves alone over a whole schedule: every attribute except
    the connection and the running flag, the threads, the event loops and
    the constructor's fault. *)
Definition loop_frame (s s' : sys) : Prop :=
  self s' = set_running (_redis_listener_running (self s'))
              (set_conn (_redis_conn (self s')) (self s)) /\
  threads s' = threads s /\
  loops s' = loops s /\
  ctor_fault s' = ctor_fault s.

(** A schedule of quiet passes: nothing happens around them and every
    blocked read times out. *)
Definition quiet (n : nat) : list tick :=
  repeat {| before := []; during := Timeout |} n.

(** The calls that publish the messages of a list, one after the other. *)
Definition publish_all (ms : list message) : list action :=
  map Call_redis_add_message_stream ms.

(** The commands sent, in order. *)
Definition commands (t : list event) : list command :=
  flat_map (fun e => match e with Cmd c => [c] | _ => [] end) t.


(** An instance whose [redis.Redis(...)] raises something else than a
    connection error. *)
Definition misconfigured : sys :=
  fresh idle_server (Some (Exception "ValueError" "invalid port")).

(** A listener at work on a connected instance. *)
Definition at_work (sv : redis_server) : sys :=
  with_self (set_running true) (connected sv).

(** A pass before which the flag is cleared. *)
Definition stop_tick : tick := {| before := [Stop_request]; during := Timeout |}.

(** An instance of capacity 1, connected. *)
Definition small : sys :=
  snd (initialize_redis default_host default_port default_db
         (with_self (set_capacity 1) (fresh idle_server None))).

Definition default_conn : Redis :=
  {| host := default_host; port := default_port; db := default_db |}.

(** The state when a wait on the thread [tid] is over. *)
Definition waited (tid : nat) (wait : option (list tick)) (s : sys) : sys :=
  match wait with
  | Some sched => snd (thread_run tid sched s)
  | None => s
  end.

(** The listener thread of [listening] once it has begun its target and
    is at the test of its loop. *)
Definition listener_begun : sys := snd (thread_run 0 [] listening).

(** A stop request on [listening] during which the thread begins its target
    and makes one quiet pass, and a second stop request in a row, during
    which the thread comes to the test of its loop. *)
Definition stopped_once : sys :=
  snd (redis_stop_listening (Some (quiet 1)) listening).

Definition stopped_twice : sys :=
  snd (redis_stop_listening (Some []) stopped_once).

(** * Properties *)

Ltac unfold_M :=
  cbv beta iota delta
    [bind ret raise try_except modify get emit logger sleep method send
     redis set_redis Redis_new ping xtrim xadd xread close].

(** ** Lists *)

Lemma length_lastn {A} (n : nat) (l : list A) : List.length (lastn n l) <= n.
Proof. unfold lastn. rewrite length_skipn. lia. Qed.

Lemma lastn_all {A} (n : nat) (l : list A) : List.length l <= n -> lastn n l = l.
Proof.
  intros H. unfold lastn. replace (List.length l - n) with 0 by lia.
  reflexivity.
Qed.

Lemma lastn_suffix {A} (n : nat) (l : list A) :
  exists old, l = old ++ lastn n l.
Proof.
  exists (firstn (List.length l - n) l). unfold lastn.
  symmetry. apply firstn_skipn.
Qed.

Lemma message_eqb_refl (m : message) : message_eqb m m = true.
Proof.
  induction m as [| [k v] m IH]; cbn; [reflexivity |].
  now rewrite !String.eqb_refl, IH.
Qed.

Lemma message_eqb_eq (a b : message) : message_eqb a b = true <-> a = b.
Proof.
  split; [| intros ->; apply message_eqb_refl].
  revert b. induction a as [| [k v] a IH]; intros [| [k' v'] b]; cbn;
    try congruence.
  rewrite !andb_true_iff, !String.eqb_eq. intros [[-> ->] H].
  now rewrite (IH b H).
Qed.

(** ** initialize_redis *)

(** C1 (the code departs from the claim).  When [redis.Redis(...)] raises a
    connection error, or the probe does because the server cannot be
    reached, [initialize_redis] logs the error and clears the connection,
    and then calls [xtrim] on the cleared connection: the caller gets an
    [AttributeError] instead of a null connection. *)
Theorem initialize_redis_connection_error_escapes :
  forall (s : sys) (h : string) (p d : Z),
    (exists msg, ctor_fault s = Some (ConnectionError msg)) \/
    (ctor_fault s = None /\ reachable (server s) = false) ->
    fst (initialize_redis h p d s) = Raise xtrim_on_None /\
    _redis_conn (self (snd (initialize_redis h p d s))) = None /\
    exists e, In (Log ERROR (Connection_error e))
                 (trace (snd (initialize_redis h p d s))).
Proof.
  intros s h p d [[msg Hc] | [Hc Hr]]; unfold initialize_redis; unfold_M;
    cbn; rewrite Hc; cbn.
  - repeat split; eauto. exists (ConnectionError msg).
    rewrite !in_app_iff. cbn. tauto.
  - rewrite Hr. cbn. repeat split; eauto. exists unreachable.
    rewrite !in_app_iff. cbn. tauto.
Qed.

(** C2 (the code departs from the claim).  When the probe answers but
    reports failure ([ping()] is false), [initialize_redis] only logs
    "Redis connection failed": it trims the stream through the connection,
    stores it and returns it, so the stored handle is not null. *)
Theorem initialize_redis_keeps_handle_after_failed_ping :
  forall (s : sys) (h : string) (p d : Z),
    ctor_fault s = None ->
    reachable (server s) = true ->
    pong (server s) = false ->
    (0 <= query_list_capacity (self s))%Z ->
    fst (initialize_redis h p d s)
      = Ok (Some {| host := h; port := p; db := d |}) /\
    _redis_conn (self (snd (initialize_redis h p d s)))
      = Some {| host := h; port := p; db := d |} /\
    In (Log ERROR Connection_failed) (trace (snd (initialize_redis h p d s))).
Proof.
  intros s h p d Hc Hr Hp Hcap. unfold initialize_redis; unfold_M; cbn.
  rewrite Hc; cbn. rewrite Hr, Hp; cbn.
  apply Z.ltb_ge in Hcap. rewrite Hcap; cbn. rewrite Hr; cbn.
  repeat split. rewrite !in_app_iff. cbn. tauto.
Qed.

Arguments dropped : simpl never.

Lemma lastn_skipn {A} (n k : nat) (l : list A) :
  k <= List.length l - n -> lastn n (skipn k l) = lastn n l.
Proof.
  intros H. unfold lastn. rewrite length_skipn, skipn_skipn.
  f_equal. lia.
Qed.

(** What a trim leaves: the stream without some of its oldest entries, the
    most recent [n] among those kept. *)
Lemma server_xtrim_keeps (approximate : bool) (n : nat) (sv : redis_server) :
  dropped approximate n sv <= List.length (entries sv) - n /\
  entries (snd (server_xtrim approximate n sv))
    = skipn (dropped approximate n sv) (entries sv) /\
  (approximate = false ->
   entries (snd (server_xtrim approximate n sv)) = lastn n (entries sv)).
Proof.
  split; [| split].
  - unfold dropped. destruct approximate; lia.
  - reflexivity.
  - intros ->. reflexivity.
Qed.

(** C9 (amended).  Every call of [initialize_redis] that returns has asked
    the server for an approximate trim of the stream to
    [query_list_capacity] (1000 after [__init__]): the stream is then what
    it was without some of its oldest entries, and its most recent
    [query_list_capacity] entries are all kept.  The trim being
    approximate, more than that many entries may remain; a stream that held
    no more is left as it was. *)
Theorem initialize_redis_trims_approximately :
  forall (s s' : sys) (h : string) (p d : Z) (c : option Redis),
    initialize_redis h p d s = (Ok c, s') ->
    c = Some {| host := h; port := p; db := d |} /\
    (0 <= query_list_capacity (self s))%Z /\
    In (Cmd (XTRIM stream_key (query_list_capacity (self s)) true)) (trace s') /\
    (exists k,
       k <= List.length (entries (server s))
            - Z.to_nat (query_list_capacity (self s)) /\
       entries (server s') = skipn k (entries (server s))) /\
    lastn (Z.to_nat (query_list_capacity (self s))) (entries (server s'))
      = lastn (Z.to_nat (query_list_capacity (self s))) (entries (server s)) /\
    (List.length (entries (server s))
       <= Z.to_nat (query_list_capacity (self s)) ->
     entries (server s') = entries (server s)) /\
    query_list_capacity __init__ = 1000%Z.
Proof.
  intros s s' h p d c.
  unfold initialize_redis, approximate_default; unfold_M; cbn.
  destruct (ctor_fault s) as [e |] eqn:Hc; cbn.
  { destruct e; cbn; intros H; inversion H. }
  destruct (reachable (server s)) eqn:Hr; cbn; [| intros H; inversion H].
  pose proof (server_xtrim_keeps true
                (Z.to_nat (query_list_capacity (self s))) (server s))
    as (Hk & He & _).
  destruct (pong (server s)); cbn;
    (destruct (query_list_capacity (self s) <? 0)%Z eqn:Hcap; cbn;
     [intros H; inversion H |]);
    rewrite Hr; cbn; intros H; inversion H; subst; cbn;
    apply Z.ltb_ge in Hcap;
    (split; [reflexivity |]); (split; [exact Hcap |]);
    (split; [rewrite !in_app_iff; cbn; tauto |]);
    (split; [eexists; split; [exact Hk | reflexivity] |]);
    (split; [now apply lastn_skipn |]);
    (split; [| reflexivity]);
    intros Hle;
    replace (dropped true (Z.to_nat (query_list_capacity (self s))) (server s))
      with 0 by lia; reflexivity.
Qed.

(** ** redis_add_message_stream *)

(** C3 (amended).  With no connection (the handle is null),
    [redis_add_message_stream] fails with the [AttributeError] of the call
    on [None] and leaves the stream as it was; the module has no check and
    no [NotConnectedError].  With a connection to a reachable server and a
    message that is not empty, it appends the message as a new entry, after
    all others, and returns the identifier the server gave it.  An empty
    message is refused by the client, with a [DataError], before anything is
    sent. *)
Theorem redis_add_message_stream_spec :
  forall (s : sys) (m : message),
    (_redis_conn (self s) = None ->
     fst (redis_add_message_stream m s) = Raise xadd_on_None /\
     server (snd (redis_add_message_stream m s)) = server s) /\
    (forall r, _redis_conn (self s) = Some r ->
     reachable (server s) = true ->
     m <> [] ->
     fst (redis_add_message_stream m s) = Ok (S (last_generated (server s))) /\
     entries (server (snd (redis_add_message_stream m s)))
       = entries (server s) ++ [(S (last_generated (server s)), m)]) /\
    (forall r, _redis_conn (self s) = Some r ->
     m = [] ->
     fst (redis_add_message_stream m s) = Raise empty_fields /\
     server (snd (redis_add_message_stream m s)) = server s /\
     commands (trace (snd (redis_add_message_stream m s)))
       = commands (trace s)).
Proof.
  intros s m. unfold redis_add_message_stream; unfold_M; cbn.
  split; [| split].
  - intros ->. cbn. split; reflexivity.
  - intros r -> Hr Hm. destruct m as [| f m]; [contradiction |]. cbn.
    rewrite Hr. cbn. split; reflexivity.
  - intros r -> ->. cbn. unfold commands. rewrite flat_map_app. cbn.
    rewrite app_nil_r. repeat split; reflexivity.
Qed.

(** ** The listener: one entry *)

Lemma deliveries_app (t u : list event) :
  deliveries (t ++ u) = deliveries t ++ deliveries u.
Proof. apply flat_map_app. Qed.

Lemma handled_app (t u : list event) : handled (t ++ u) = handled t ++ handled u.
Proof. apply flat_map_app. Qed.


Lemma reads_app (t u : list event) : reads (t ++ u) = reads t ++ reads u.
Proof. apply flat_map_app. Qed.

Lemma handled_logs (out : list (level * log_msg)) :
  handled (map (fun lm => Log (fst lm) (snd lm)) out) = [].
Proof. induction out; cbn; auto. Qed.



(** What one entry does to the state, by the handler's outcome. *)
Lemma process_eq (handler : Handler) (last_id : cursor) (i : entry_id)
    (data : message) (s : sys) :
  process handler last_id (i, data) s =
    let out := handler (deliveries (trace s)) data in
    let s' := emits (Print data :: Handle i data
                       :: map (fun lm => Log (fst lm) (snd lm)) (fst out)) s in
    match snd out with
    | None => (Ok (At i), s')
    | Some e => (Ok last_id, emits [Log ERROR (Error_processing i e)] s')
    end.
Proof.
  unfold process, await; unfold_M; cbn.
  rewrite deliveries_app; cbn. rewrite app_nil_r.
  destruct (handler (deliveries (trace s)) data) as [out [e |]]; cbn;
    unfold emits; cbn; rewrite <- ?app_assoc; reflexivity.
Qed.

(** ** The listener: one pass *)

Arguments process : simpl never.

Lemma emits_emits (a b : list event) (s : sys) :
  emits b (emits a s) = emits (a ++ b) s.
Proof. unfold emits; cbn. now rewrite app_assoc. Qed.

Lemma process_ok (handler : Handler) (last_id : cursor) (e : entry) (s : sys) :
  exists c, fst (process handler last_id e s) = Ok c.
Proof.
  destruct e as [i data]. rewrite process_eq. cbv zeta.
  destruct (snd (handler (deliveries (trace s)) data)); cbn; eauto.
Qed.

(** With no connection the read is a call on [None]: the pass logs the
    [AttributeError] as unexpected, sleeps one second, and sends nothing. *)
Lemma iteration_no_conn (handler : Handler) (block_time : Z)
    (during : block_event) (last_id : cursor) (s : sys) :
  _redis_conn (self s) = None ->
  iteration handler block_time during last_id s
    = (Ok last_id,
       emits [Log ERROR (Unexpected_error xread_on_None); Sleep 1] s).
Proof.
  intros Hc. unfold iteration; unfold_M; cbn. rewrite Hc; cbn.
  now rewrite emits_emits.
Qed.

Lemma iteration_unreachable (handler : Handler) (block_time : Z)
    (during : block_event) (last_id : cursor) (s : sys) (r : Redis) :
  _redis_conn (self s) = Some r ->
  reachable (server s) = false ->
  iteration handler block_time during last_id s
    = (Ok last_id,
       with_self (set_conn None)
         (emits [read_cmd last_id block_time;
                 Log ERROR (Connection_error unreachable); Sleep 5] s)).
Proof.
  intros Hc Hr. unfold iteration; unfold_M; cbn. rewrite Hc; cbn.
  rewrite Hr; cbn. now rewrite !emits_emits.
Qed.

Lemma iteration_ready (handler : Handler) (block_time : Z)
    (during : block_event) (last_id : cursor) (s : sys) (r : Redis) (e : entry) :
  _redis_conn (self s) = Some r ->
  reachable (server s) = true ->
  ready s last_id = Some e ->
  iteration handler block_time during last_id s
    = process handler last_id e (emits [read_cmd last_id block_time] s).
Proof.
  intros Hc Hr He. unfold ready in He.
  unfold iteration; unfold_M; cbn. rewrite Hc; cbn. rewrite Hr; cbn.
  destruct (after (resolve (server s) last_id) (entries (server s)))
    as [| e' l]; [discriminate |].
  cbn in He. inversion He; subst e'. cbn.
  destruct e as [i data].
  fold (read_cmd last_id block_time).
  unfold bind, ret. rewrite process_eq. cbv zeta.
  destruct (snd (handler _ data)); reflexivity.
Qed.

Lemma iteration_timeout (handler : Handler) (block_time : Z)
    (last_id : cursor) (s : sys) (r : Redis) :
  _redis_conn (self s) = Some r ->
  reachable (server s) = true ->
  ready s last_id = None ->
  iteration handler block_time Timeout last_id s
    = (Ok last_id, emits [read_cmd last_id block_time] s).
Proof.
  intros Hc Hr He. unfold ready in He.
  unfold iteration; unfold_M; cbn. rewrite Hc; cbn. rewrite Hr; cbn.
  destruct (after (resolve (server s) last_id) (entries (server s)));
    [reflexivity | discriminate].
Qed.

Lemma iteration_arrival (handler : Handler) (block_time : Z) (m : message)
    (last_id : cursor) (s : sys) (r : Redis) :
  _redis_conn (self s) = Some r ->
  reachable (server s) = true ->
  ready s last_id = None ->
  iteration handler block_time (Arrival m) last_id s
    = process handler last_id (S (last_generated (server s)), m)
        (with_server (fun sv => snd (server_xadd m sv))
           (emits [read_cmd last_id block_time] s)).
Proof.
  intros Hc Hr He. unfold ready in He.
  unfold iteration; unfold_M; cbn. rewrite Hc; cbn. rewrite Hr; cbn.
  destruct (after (resolve (server s) last_id) (entries (server s)));
    [| discriminate].
  cbn. fold (read_cmd last_id block_time).
  unfold bind, ret. rewrite !process_eq. cbn.
  destruct (snd (handler _ m)); reflexivity.
Qed.

Lemma iteration_disconnect (handler : Handler) (block_time : Z)
    (last_id : cursor) (s : sys) (r : Redis) :
  _redis_conn (self s) = Some r ->
  reachable (server s) = true ->
  ready s last_id = None ->
  iteration handler block_time Disconnect last_id s
    = (Ok last_id,
       with_self (set_conn None)
         (with_server (set_reachable false)
            (emits [read_cmd last_id block_time;
                    Log ERROR (Connection_error lost); Sleep 5] s))).
Proof.
  intros Hc Hr He. unfold ready in He.
  unfold iteration; unfold_M; cbn. rewrite Hc; cbn. rewrite Hr; cbn.
  destruct (after (resolve (server s) last_id) (entries (server s)));
    [| discriminate].
  cbn. unfold with_self, with_server, emits; cbn.
  now rewrite <- !app_assoc.
Qed.

(** C4.  In a pass of the loop the read returns one entry, which the pass
    dispatches.  For every entry the loop dispatches, the local [last_id]
    becomes that entry's identifier when the handler returns, and keeps its
    value, with the error logged under the entry's identifier, when the
    handler raises; so it is advanced to the entry's identifier if and only
    if the handler returned. *)
Theorem process_advances_cursor_iff_handler_returns :
  forall (handler : Handler) (last_id : cursor) (message_id : entry_id)
         (message_data : message) (s : sys),
    (snd (handler (deliveries (trace s)) message_data) = None ->
     fst (process handler last_id (message_id, message_data) s)
       = Ok (At message_id)) /\
    (forall e, snd (handler (deliveries (trace s)) message_data) = Some e ->
     fst (process handler last_id (message_id, message_data) s) = Ok last_id /\
     In (Log ERROR (Error_processing message_id e))
        (trace (snd (process handler last_id (message_id, message_data) s)))) /\
    (last_id <> At message_id ->
     (fst (process handler last_id (message_id, message_data) s)
        = Ok (At message_id)
      <-> snd (handler (deliveries (trace s)) message_data) = None)) /\
    (forall (bt : Z) (d : block_event) (r : Redis) (s0 : sys),
       _redis_conn (self s0) = Some r ->
       reachable (server s0) = true ->
       ready s0 last_id = Some (message_id, message_data) ->
       iteration handler bt d last_id s0
         = process handler last_id (message_id, message_data)
             (emits [read_cmd last_id bt] s0)) /\
    (forall (bt : Z) (r : Redis) (s0 : sys),
       _redis_conn (self s0) = Some r ->
       reachable (server s0) = true ->
       ready s0 last_id = None ->
       iteration handler bt (Arrival message_data) last_id s0
         = process handler last_id (S (last_generated (server s0)), message_data)
             (with_server (fun sv => snd (server_xadd message_data sv))
                (emits [read_cmd last_id bt] s0))).
Proof.
  intros handler last_id i data s.
  split; [| split; [| split; [| split]]];
    [| | | intros bt d r s0; apply iteration_ready
         | intros bt r s0; apply iteration_arrival].
  all: rewrite process_eq; cbv zeta;
    destruct (handler (deliveries (trace s)) data) as [out [e |]]; cbn.
  - discriminate.
  - reflexivity.
  - intros e' H. inversion H; subst. split; [reflexivity |].
    rewrite !in_app_iff. cbn. tauto.
  - discriminate.
  - intros Hne. split; [| discriminate]. intros H. inversion H. congruence.
  - tauto.
Qed.

Lemma frame_refl (s : sys) : frame s s.
Proof. unfold frame. destruct s as [[] ? ? ? ? ?]; cbn; auto. Qed.

Lemma frame_trans (s1 s2 s3 : sys) : frame s1 s2 -> frame s2 s3 -> frame s1 s3.
Proof.
  unfold frame. intros (H1 & H2 & H3 & H4) (K1 & K2 & K3 & K4).
  rewrite K1, H1, K2, K3, K4. destruct (self s1); cbn; auto.
Qed.

Lemma frame_running (s s' : sys) :
  frame s s' ->
  _redis_listener_running (self s') = _redis_listener_running (self s) /\
  _redis_listener_thread (self s') = _redis_listener_thread (self s) /\
  query_list_capacity (self s') = query_list_capacity (self s).
Proof. intros (H & _). rewrite H. destruct (self s); cbn; auto. Qed.

Lemma frame_emits (l : list event) (s : sys) : frame s (emits l s).
Proof. unfold frame. destruct s as [[] ? ? ? ? ?]; cbn; auto. Qed.

Lemma frame_with_server (f : redis_server -> redis_server) (s : sys) :
  frame s (with_server f s).
Proof. unfold frame. destruct s as [[] ? ? ? ? ?]; cbn; auto. Qed.

Lemma frame_set_conn (c : option Redis) (s : sys) :
  frame s (with_self (set_conn c) s).
Proof. unfold frame. destruct s as [[] ? ? ? ? ?]; cbn; auto. Qed.

Create HintDb frames.

#[local] Hint Resolve frame_refl frame_emits frame_with_server frame_set_conn
  : frames.

Lemma process_frame (handler : Handler) (last_id : cursor) (e : entry) (s : sys) :
  frame s (snd (process handler last_id e s)).
Proof.
  destruct e as [i data]. rewrite process_eq. cbv zeta.
  destruct (snd (handler (deliveries (trace s)) data)); cbn;
    rewrite ?emits_emits; auto with frames.
Qed.

(** The cases of a pass, by the connection, the server and the read. *)
Ltac iteration_cases handler bt d c s :=
  let r := fresh "r" in
  let e := fresh "e" in
  let m := fresh "m" in
  let Hconn := fresh "Hconn" in
  let Hreach := fresh "Hreach" in
  let Hready := fresh "Hready" in
  destruct (_redis_conn (self s)) as [r |] eqn:Hconn;
  [ destruct (reachable (server s)) eqn:Hreach;
    [ destruct (ready s c) as [e |] eqn:Hready;
      [ rewrite (iteration_ready handler bt d c s r e Hconn Hreach Hready)
      | destruct d as [| m |];
        [ rewrite (iteration_timeout handler bt c s r Hconn Hreach Hready)
        | rewrite (iteration_arrival handler bt m c s r Hconn Hreach Hready)
        | rewrite (iteration_disconnect handler bt c s r Hconn Hreach Hready) ] ]
    | rewrite (iteration_unreachable handler bt d c s r Hconn Hreach) ]
  | rewrite (iteration_no_conn handler bt d c s Hconn) ].

(** A pass never raises: both handlers of the outer [try] return. *)
Lemma iteration_returns (handler : Handler) (bt : Z) (d : block_event)
    (c : cursor) (s : sys) :
  exists c', fst (iteration handler bt d c s) = Ok c'.
Proof.
  iteration_cases handler bt d c s; cbn; eauto using process_ok.
Qed.

Lemma iteration_frame (handler : Handler) (bt : Z) (d : block_event)
    (c : cursor) (s : sys) :
  frame s (snd (iteration handler bt d c s)).
Proof.
  iteration_cases handler bt d c s; cbn; auto with frames.
  - eapply frame_trans; [| apply process_frame]. auto with frames.
  - eapply frame_trans; [| apply process_frame].
    eapply frame_trans; [apply frame_emits | apply frame_with_server].
  - eapply frame_trans; [apply frame_emits |].
    eapply frame_trans; [apply frame_with_server | apply frame_set_conn].
  - eapply frame_trans; [apply frame_emits | apply frame_set_conn].
Qed.

(** ** The listener: the loop *)

Lemma listen_loop_nil (handler : Handler) (bt : Z) (c : cursor) (s : sys) :
  listen_loop handler bt [] c s
    = (Ok (if _redis_listener_running (self s) then Looping else Exited, c), s).
Proof. reflexivity. Qed.

Lemma listen_loop_cons (handler : Handler) (bt : Z) (t : tick)
    (sched : list tick) (c : cursor) (s : sys) :
  listen_loop handler bt (t :: sched) c s
    = if _redis_listener_running (self (fold_left env_apply (before t) s))
      then match iteration handler bt (during t) c
                   (fold_left env_apply (before t) s) with
           | (Ok c', s') => listen_loop handler bt sched c' s'
           | (Raise e, s') => (Raise e, s')
           end
      else (Ok (Exited, c), fold_left env_apply (before t) s).
Proof.
  cbn [listen_loop]. unfold bind, modify, get, ret.
  destruct (_redis_listener_running (self (fold_left env_apply (before t) s)));
    reflexivity.
Qed.

Lemma env_running (l : list env_action) (s : sys) :
  existsb is_stop l = false ->
  _redis_listener_running (self (fold_left env_apply l s))
    = _redis_listener_running (self s).
Proof.
  revert s. induction l as [| a l IH]; intros s H; [reflexivity |].
  cbn in H. apply orb_false_iff in H as [Ha Hl]. cbn [fold_left].
  rewrite IH by assumption. destruct a; cbn in *; congruence.
Qed.

Lemma env_invariant (P : sys -> Prop) (l : list env_action) (s : sys) :
  (forall s a, P s -> P (env_apply s a)) -> P s -> P (fold_left env_apply l s).
Proof.
  intros Henv. revert s. induction l as [| a l IH]; intros s H; cbn; auto.
Qed.

(** The loop never raises, and keeps any property that the surroundings
    and a pass keep.  At the end of the schedule it is at its test; a
    schedule with no stop request leaves it looping. *)
Lemma listen_loop_invariant (I : cursor -> sys -> Prop) (handler : Handler)
    (bt : Z) :
  (forall c s a, I c s -> I c (env_apply s a)) ->
  (forall c s d c' s',
     I c s -> _redis_listener_running (self s) = true ->
     iteration handler bt d c s = (Ok c', s') -> I c' s') ->
  forall sched c s,
    I c s ->
    exists st c' s',
      listen_loop handler bt sched c s = (Ok (st, c'), s') /\
      I c' s' /\
      st = (if _redis_listener_running (self s') then Looping else Exited) /\
      (stops sched = false -> _redis_listener_running (self s) = true ->
       st = Looping).
Proof.
  intros Henv Hpass. induction sched as [| t sched IH]; intros c s HI.
  - rewrite listen_loop_nil. do 3 eexists. split; [reflexivity |].
    split; [assumption |]. split; [reflexivity |].
    intros _ ->. reflexivity.
  - rewrite listen_loop_cons.
    pose proof (env_invariant (I c) (before t) s (Henv c) HI) as HI1.
    destruct (_redis_listener_running (self (fold_left env_apply (before t) s)))
      eqn:Hrun.
    + destruct (iteration_returns handler bt (during t) c
                  (fold_left env_apply (before t) s)) as [c1 Hc1].
      pose proof (iteration_frame handler bt (during t) c
                    (fold_left env_apply (before t) s)) as Hfr.
      destruct (iteration handler bt (during t) c
                  (fold_left env_apply (before t) s)) as [r1 s1] eqn:Hit.
      cbn in Hc1, Hfr. subst r1.
      destruct (IH c1 s1 (Hpass _ _ _ _ _ HI1 Hrun Hit))
        as (st & c' & s' & Heq & HI' & Hst & Hloop).
      exists st, c', s'. repeat split; auto.
      intros Hstops _. cbn in Hstops. apply orb_false_iff in Hstops as [_ Hs].
      apply Hloop; [assumption |].
      apply frame_running in Hfr as [-> _]. assumption.
    + do 3 eexists. split; [reflexivity |]. split; [assumption |].
      rewrite Hrun. split; [reflexivity |].
      intros Hstops Hr. cbn in Hstops. apply orb_false_iff in Hstops as [Hb _].
      rewrite env_running in Hrun by assumption. congruence.
Qed.

(** ** Threads *)

Lemma nth_error_update {A} (f : A -> A) (l : list A) (n k : nat) :
  nth_error (update n f l) k
    = if k =? n then option_map f (nth_error l k) else nth_error l k.
Proof.
  revert n k. induction l as [| x l IH]; intros [| n] [| k]; cbn; auto.
  now destruct (k =? n).
Qed.

Lemma length_update {A} (f : A -> A) (l : list A) (n : nat) :
  List.length (update n f l) = List.length l.
Proof.
  revert n. induction l as [| x l IH]; intros [| n]; cbn; auto.
Qed.


(** ** redis_close and redis_stop_listening *)

Lemma redis_close_eq (s : sys) :
  redis_close s =
    match _redis_conn (self s) with
    | Some r => (Ok tt, with_self (set_conn None) (emits [Cmd CLOSE] s))
    | None => (Ok tt, s)
    end.
Proof.
  unfold redis_close; unfold_M; cbn.
  destruct (_redis_conn (self s)); reflexivity.
Qed.

(** ** What a dispatch adds to the trace *)

Lemma process_server (handler : Handler) (c : cursor) (e : entry) (s : sys) :
  server (snd (process handler c e s)) = server s /\
  _redis_conn (self (snd (process handler c e s))) = _redis_conn (self s).
Proof.
  destruct e as [i d]. rewrite process_eq. cbv zeta.
  destruct (snd (handler (deliveries (trace s)) d)); split; reflexivity.
Qed.

Lemma process_handled (handler : Handler) (c : cursor) (i : entry_id)
    (d : message) (s : sys) :
  handled (trace (snd (process handler c (i, d) s)))
    = handled (trace s) ++ [(i, d)].
Proof.
  rewrite process_eq. cbv zeta.
  destruct (snd (handler (deliveries (trace s)) d)); cbn;
    rewrite ?handled_app; cbn; rewrite handled_logs; cbn;
    rewrite ?app_nil_r; reflexivity.
Qed.



Lemma process_cursor (handler : Handler) (c : cursor) (i : entry_id)
    (d : message) (s : sys) :
  fst (process handler c (i, d) s)
    = Ok (match snd (handler (deliveries (trace s)) d) with
          | Some _ => c
          | None => At i
          end).
Proof.
  rewrite process_eq. cbv zeta.
  destruct (snd (handler (deliveries (trace s)) d)); reflexivity.
Qed.



(** ** The listener after a lost connection *)

Lemma concat_repeat_snoc {A} (u : list A) (k : nat) :
  List.concat (repeat u k) ++ u = List.concat (repeat u (S k)).
Proof.
  induction k as [| k IH]; cbn; [now rewrite app_nil_r |].
  cbn in IH. now rewrite <- app_assoc, IH.
Qed.

Lemma env_conn (s : sys) (a : env_action) :
  _redis_conn (self (env_apply s a)) = _redis_conn (self s) /\
  trace (env_apply s a) = trace s.
Proof. destruct a; split; reflexivity. Qed.

(** With the connection attribute null, the loop only logs and sleeps: it
    sends no command, calls no handler and leaves the attribute null,
    whatever the server and the other clients do. *)
Lemma listen_loop_no_conn (handler : Handler) (bt : Z) (sched : list tick)
    (c : cursor) (s : sys) :
  _redis_conn (self s) = None ->
  exists st s' k,
    listen_loop handler bt sched c s = (Ok (st, c), s') /\
    _redis_conn (self s') = None /\
    trace s' = trace s ++ List.concat (repeat retry_lines k) /\
    (stops sched = false -> _redis_listener_running (self s) = true ->
     st = Looping).
Proof.
  intros Hc.
  destruct (listen_loop_invariant
              (fun c' s' => c' = c /\ _redis_conn (self s') = None /\
                            exists k, trace s' = trace s
                                                 ++ List.concat (repeat retry_lines k))
              handler bt) with (sched := sched) (c := c) (s := s)
    as (st & c' & s' & Heq & (-> & Hc' & k & Ht) & _ & Hloop).
  - intros c0 s0 a (-> & H0 & k & Ht).
    destruct (env_conn s0 a) as [-> ->]. eauto.
  - intros c0 s0 d c1 s1 (-> & H0 & k & Ht) _ Hit.
    rewrite iteration_no_conn in Hit by assumption.
    inversion Hit; subst. split; [reflexivity |]. split; [exact H0 |].
    exists (S k). cbn [trace emits]. rewrite Ht, <- app_assoc.
    now rewrite concat_repeat_snoc.
  - split; [reflexivity |]. split; [assumption |]. exists 0. cbn.
    now rewrite app_nil_r.
  - exists st, s', k. auto.
Qed.

(** C6 (the code departs from the claim).  When the connection is lost
    during the blocking read, the pass logs the error, sleeps five seconds
    and clears the connection attribute; nothing sets it again.  Every later
    pass is a call on [None]: it logs an unexpected [AttributeError] and
    sleeps one second, whatever happens to the server and the stream.  The
    loop goes on, and never sends a read again. *)
Theorem listener_never_reconnects :
  forall (handler : Handler) (bt : Z) (last_id : cursor) (s : sys) (r : Redis)
         (sched : list tick),
    _redis_conn (self s) = Some r ->
    reachable (server s) = true ->
    ready s last_id = None ->
    _redis_listener_running (self s) = true ->
    exists st s' k,
      listen_loop handler bt
        ({| before := []; during := Disconnect |} :: sched) last_id s
        = (Ok (st, last_id), s') /\
      _redis_conn (self s') = None /\
      trace s' = trace s ++ disconnect_lines last_id bt
                         ++ List.concat (repeat retry_lines k) /\
      reads (trace s') = reads (trace s) ++ [last_id] /\
      handled (trace s') = handled (trace s) /\
      (stops sched = false -> st = Looping).
Proof.
  intros handler bt last_id s r sched Hc Hr He Hrun.
  rewrite listen_loop_cons. cbn [before during fold_left]. rewrite Hrun.
  rewrite (iteration_disconnect handler bt last_id s r Hc Hr He).
  destruct (listen_loop_no_conn handler bt sched last_id
              (with_self (set_conn None)
                 (with_server (set_reachable false)
                    (emits (disconnect_lines last_id bt) s))))
    as (st & s' & k & Heq & Hc' & Ht & Hloop); [reflexivity |].
  exists st, s', k. split; [exact Heq |]. split; [exact Hc' |].
  cbn [trace with_self with_server emits] in Ht.
  rewrite <- app_assoc in Ht. split; [exact Ht |].
  assert (Hquiet : reads (List.concat (repeat retry_lines k)) = [] /\
                   handled (List.concat (repeat retry_lines k)) = []).
  { clear. induction k as [| k [IH1 IH2]]; cbn; auto. }
  destruct Hquiet as [Hq1 Hq2].
  rewrite Ht, !reads_app, !handled_app, Hq1, Hq2. cbn.
  rewrite !app_nil_r. repeat split.
  intros Hs. apply Hloop; [exact Hs |].
  cbn. destruct (self s); cbn in *; assumption.
Qed.

(** ** The listener on an entry whose handler raises *)







(** ** One worker at most *)

Lemma redis_start_listening_eq (handler : option Handler) (s : sys) :
  redis_start_listening handler s =
    match _redis_listener_thread (self s) with
    | Some tid =>
        if alive_at tid s
        then (Ok tt, emits [Log WARNING Already_running] s)
        else (Ok tt, spawned handler s)
    | None => (Ok tt, spawned handler s)
    end.
Proof.
  unfold redis_start_listening, listener_alive, is_alive; unfold_M.
  destruct (_redis_listener_thread (self s)) as [tid |]; cbn.
  - destruct (alive_at tid s); reflexivity.
  - reflexivity.
Qed.

Lemma same_threads_refl (s : sys) : same_threads s s.
Proof. split; reflexivity. Qed.

Lemma same_threads_trans (s1 s2 s3 : sys) :
  same_threads s1 s2 -> same_threads s2 s3 -> same_threads s1 s3.
Proof. intros [H1 H2] [K1 K2]. split; congruence. Qed.

Lemma frame_same_threads (s s' : sys) : frame s s' -> same_threads s s'.
Proof.
  intros H. split; [apply H |]. now apply frame_running in H.
Qed.

Lemma same_threads_single (s s' : sys) :
  same_threads s s' -> single_listener s -> single_listener s'.
Proof.
  intros [Ht Ha] H tid th. rewrite Ht, Ha. apply H.
Qed.

Lemma env_same_threads (s : sys) (a : env_action) :
  same_threads s (env_apply s a).
Proof. destruct a; split; reflexivity. Qed.

Lemma initialize_redis_same_threads (h : string) (p d : Z) (s : sys) :
  same_threads s (snd (initialize_redis h p d s)).
Proof.
  unfold same_threads, initialize_redis; unfold_M; cbn.
  destruct (ctor_fault s) as [[] |]; cbn; auto.
  destruct (reachable (server s)) eqn:Hr; cbn; auto.
  destruct (pong (server s)); cbn;
    destruct (query_list_capacity (self s) <? 0)%Z; cbn;
    rewrite ?Hr; cbn; auto.
Qed.

Lemma redis_add_message_stream_same_threads (m : message) (s : sys) :
  same_threads s (snd (redis_add_message_stream m s)).
Proof.
  unfold same_threads, redis_add_message_stream; unfold_M; cbn.
  destruct (_redis_conn (self s)); cbn; auto.
  destruct m; cbn; auto.
  destruct (reachable (server s)); cbn; auto.
Qed.

Lemma redis_close_same_threads (s : sys) :
  same_threads s (snd (redis_close s)).
Proof.
  rewrite redis_close_eq. destruct (_redis_conn (self s)); split; reflexivity.
Qed.

Lemma listen_loop_same_threads (handler : Handler) (bt : Z)
    (sched : list tick) (c : cursor) (s : sys) :
  exists st c' s',
    listen_loop handler bt sched c s = (Ok (st, c'), s') /\
    same_threads s s' /\
    st = (if _redis_listener_running (self s') then Looping else Exited).
Proof.
  destruct (listen_loop_invariant (fun _ s' => same_threads s s') handler bt)
    with (sched := sched) (c := c) (s := s)
    as (st & c' & s' & Heq & Hs & Hst & _).
  - intros _ s0 a H. eapply same_threads_trans; [exact H |].
    apply env_same_threads.
  - intros c0 s0 d c1 s1 H _ Hit. eapply same_threads_trans; [exact H |].
    apply frame_same_threads.
    pose proof (iteration_frame handler bt d c0 s0) as Hf.
    now rewrite Hit in Hf.
  - apply same_threads_refl.
  - eauto 6.
Qed.

Lemma finishing_ok (body : M (status * cursor)) (s s' : sys)
    (r : status * cursor) :
  body s = (Ok r, s') ->
  finishing body s
    = (Ok r, match fst r with
             | Exited => with_self (set_running false) s'
             | Looping => s'
             end).
Proof.
  intros H. unfold finishing; unfold_M. rewrite H.
  destruct r as [[|] c]; reflexivity.
Qed.

Lemma thread_run_eq (tid : nat) (sched : list tick) (s : sys) :
  thread_run tid sched s =
    match nth_error (threads s) tid with
    | Some th =>
        if alive th then
          match thread_body th sched s with
          | (Ok r, s') =>
              (Ok tt,
               with_threads (update tid (set_progress (fst r) (snd r))) s')
          | (Raise e, s') => (Raise e, s')
          end
        else (Ok tt, s)
    | None => (Ok tt, s)
    end.
Proof.
  unfold thread_run. unfold bind, get, modify, ret.
  destruct (nth_error (threads s) tid) as [th |]; [| reflexivity].
  destruct (alive th); reflexivity.
Qed.

(** A worker that runs changes its own state among the threads, and no
    other; it returns. *)
Lemma thread_run_threads (tid : nat) (sched : list tick) (s : sys) :
  _redis_listener_thread (self (snd (thread_run tid sched s)))
    = _redis_listener_thread (self s) /\
  (threads (snd (thread_run tid sched s)) = threads s \/
   alive_at tid s = true /\
   exists st c, threads (snd (thread_run tid sched s))
                = update tid (set_progress st c) (threads s)).
Proof.
  rewrite thread_run_eq. unfold alive_at.
  destruct (nth_error (threads s) tid) as [th |] eqn:Hth;
    [| split; [reflexivity | left; reflexivity]].
  destruct (alive th) eqn:Hal; [| split; [reflexivity | left; reflexivity]].
  assert (Hbody : exists st c s',
    thread_body th sched s = (Ok (st, c), s') /\ same_threads s s').
  { unfold thread_body. destruct (begun th).
    - destruct (listen_loop_same_threads (target th) 2000 sched (position th) s)
        as (st & c & s' & Heq & Hs & _).
      rewrite (finishing_ok _ _ _ _ Heq). exists st, c. eexists.
      split; [reflexivity |].
      destruct st; cbn; [exact Hs |].
      eapply same_threads_trans; [exact Hs |]. split; reflexivity.
    - unfold _redis_run_listener_async, listener_wrapper,
        __redis_listen_query_stream.
      unfold bind at 1 2 3. unfold get at 1. unfold modify at 1 2.
      set (s1 := with_self (set_loop (Some (loops s))) (with_loops S s)).
      assert (H1 : same_threads s s1).
      { split; reflexivity. }
      destruct (listen_loop_same_threads (target th) 2000 sched Dollar
                  (with_self (set_running true) s1))
        as (st & c & s' & Heq & Hs & _).
      assert (Heq' : (modify (with_self (set_running true)) ;;;
                      listen_loop (target th) 2000 sched Dollar) s1
                     = (Ok (st, c), s')) by exact Heq.
      rewrite (finishing_ok _ _ _ _ Heq'). exists st, c. eexists.
      split; [reflexivity |].
      assert (H2 : same_threads s s').
      { eapply same_threads_trans; [exact H1 |].
        eapply same_threads_trans; [| exact Hs].
        split; reflexivity. }
      destruct st; cbn; [exact H2 |].
      eapply same_threads_trans; [exact H2 |]. split; reflexivity. }
  destruct Hbody as (st & c & s' & Heq & Ht & Ha).
  rewrite Heq. cbn.
  split; [exact Ha |]. right. split; [reflexivity |].
  exists st, c. now rewrite Ht.
Qed.

Lemma env_stopped (l : list env_action) (s : sys) :
  existsb is_stop l = true \/ _redis_listener_running (self s) = false ->
  _redis_listener_running (self (fold_left env_apply l s)) = false.
Proof.
  revert s. induction l as [| a l IH]; intros s H; cbn in *.
  - destruct H as [H | H]; [discriminate | exact H].
  - apply IH. destruct a; cbn in *; auto.
Qed.

(** A loop that finds its flag cleared returns at once. *)
Lemma listen_loop_not_running (handler : Handler) (bt : Z) (sched : list tick)
    (c : cursor) (s : sys) :
  _redis_listener_running (self s) = false ->
  exists s',
    listen_loop handler bt sched c s = (Ok (Exited, c), s') /\
    _redis_listener_running (self s') = false.
Proof.
  intros Hr. destruct sched as [| t sched].
  - rewrite listen_loop_nil, Hr. eauto.
  - rewrite listen_loop_cons.
    rewrite (env_stopped (before t) s) by (right; exact Hr).
    eexists. split; [reflexivity |]. apply env_stopped. right; exact Hr.
Qed.

(** What a thread runs returns, with the status of its loop; the threads
    and the thread the instance holds are as they were. *)
Lemma thread_body_returns (th : thread) (sched : list tick) (s : sys) :
  exists st c s',
    thread_body th sched s = (Ok (st, c), s') /\
    same_threads s s' /\
    st = (if _redis_listener_running (self s') then Looping else Exited) /\
    (begun th = true -> _redis_listener_running (self s) = false ->
     st = Exited) /\
    (begun th = false -> stops sched = false -> st = Looping).
Proof.
  unfold thread_body. destruct (begun th).
  - destruct (listen_loop_same_threads (target th) 2000 sched (position th) s)
      as (st & c & s' & Heq & Hs & Hst).
    rewrite (finishing_ok _ _ _ _ Heq). exists st, c. eexists.
    split; [reflexivity |]. cbn [fst]. split; [| split; [| split]].
    + destruct st; [exact Hs |].
      eapply same_threads_trans; [exact Hs |]. split; reflexivity.
    + destruct st; [exact Hst | reflexivity].
    + intros _ Hr.
      destruct (listen_loop_not_running (target th) 2000 sched (position th)
                  s Hr) as (s0 & Heq0 & _).
      rewrite Heq in Heq0. now inversion Heq0.
    + discriminate.
  - unfold _redis_run_listener_async, listener_wrapper,
      __redis_listen_query_stream.
    unfold bind at 1 2 3. unfold get at 1. unfold modify at 1 2.
    set (s1 := with_self (set_loop (Some (loops s))) (with_loops S s)).
    destruct (listen_loop_same_threads (target th) 2000 sched Dollar
                (with_self (set_running true) s1))
      as (st & c & s' & Heq & Hs & Hst).
    destruct (listen_loop_invariant (fun _ _ => True) (target th) 2000
                (fun _ _ _ _ => I) (fun _ _ _ _ _ _ _ _ => I)
                sched Dollar (with_self (set_running true) s1) I)
      as (st0 & c0 & s0 & Heq0 & _ & _ & Hloop).
    rewrite Heq in Heq0. inversion Heq0; subst st0 c0 s0. clear Heq0.
    assert (Heq' : (modify (with_self (set_running true)) ;;;
                    listen_loop (target th) 2000 sched Dollar) s1
                   = (Ok (st, c), s')) by exact Heq.
    rewrite (finishing_ok _ _ _ _ Heq'). exists st, c. eexists.
    split; [reflexivity |]. cbn [fst].
    assert (H2 : same_threads s s').
    { eapply same_threads_trans; [| exact Hs]. split; reflexivity. }
    split; [| split; [| split]].
    + destruct st; [exact H2 |].
      eapply same_threads_trans; [exact H2 |]. split; reflexivity.
    + destruct st; [exact Hst | reflexivity].
    + discriminate.
    + intros _ Hstops. apply Hloop; [exact Hstops | reflexivity].
Qed.

(** A thread that runs returns; it is alive afterwards if its loop is still
    looping. *)
Lemma thread_run_alive (tid : nat) (sched : list tick) (s : sys) (th : thread) :
  nth_error (threads s) tid = Some th ->
  alive th = true ->
  exists st c s',
    thread_body th sched s = (Ok (st, c), s') /\
    same_threads s s' /\
    thread_run tid sched s
      = (Ok tt, with_threads (update tid (set_progress st c)) s') /\
    alive_at tid (snd (thread_run tid sched s))
      = (if _redis_listener_running (self s') then true else false) /\
    _redis_listener_running (self (snd (thread_run tid sched s)))
      = _redis_listener_running (self s') /\
    st = (if _redis_listener_running (self s') then Looping else Exited).
Proof.
  intros Hth Hal.
  destruct (thread_body_returns th sched s)
    as (st & c & s' & Heq & Hs & Hst & _).
  exists st, c, s'. split; [exact Heq |]. split; [exact Hs |].
  rewrite thread_run_eq, Hth, Hal, Heq. cbn [fst snd].
  split; [reflexivity |]. split; [| split; [reflexivity | exact Hst]].
  unfold alive_at. cbn [threads with_threads].
  rewrite nth_error_update, Nat.eqb_refl.
  destruct Hs as [Ht _]. rewrite Ht, Hth. cbn. rewrite Hst.
  destruct (_redis_listener_running (self s')); reflexivity.
Qed.

Lemma thread_run_ok (tid : nat) (sched : list tick) (s : sys) :
  fst (thread_run tid sched s) = Ok tt.
Proof.
  rewrite thread_run_eq.
  destruct (nth_error (threads s) tid) as [th |]; [| reflexivity].
  destruct (alive th); [| reflexivity].
  destruct (thread_body_returns th sched s) as (st & c & s' & Heq & _).
  now rewrite Heq.
Qed.

Arguments thread_run : simpl never.

(** [redis_stop_listening], by the state of the worker before the wait and
    after it. *)
Lemma redis_stop_listening_eq (wait : option (list tick)) (s : sys) :
  redis_stop_listening wait s =
    match _redis_listener_thread (self s) with
    | Some tid =>
        if alive_at tid s then
          (Ok tt,
           emits ((if alive_at tid
                        (waited tid wait
                           (emits [Join tid]
                              (with_self (set_running false) s)))
                   then [Log WARNING Not_graceful]
                   else [])
                  ++ [Log INFO Listener_stopped])
             (waited tid wait
                (emits [Join tid] (with_self (set_running false) s))))
        else (Ok tt,
              emits [Log INFO Listener_stopped]
                (with_self (set_running false) s))
    | None => (Ok tt,
               emits [Log INFO Listener_stopped]
                 (with_self (set_running false) s))
    end.
Proof.
  cbv beta iota delta [redis_stop_listening listener_alive join is_alive
                       bind modify get ret emit logger].
  cbn [fst snd self with_self _redis_listener_thread set_running].
  destruct (_redis_listener_thread (self s)) as [tid |] eqn:Htid;
    [| reflexivity].
  change (alive_at tid (with_self (set_running false) s))
    with (alive_at tid s).
  destruct (alive_at tid s) eqn:Hal; [| reflexivity].
  cbn [fst snd self with_self _redis_listener_thread set_running emits].
  rewrite Htid.
  set (sj := emits [Join tid] (with_self (set_running false) s)).
  destruct wait as [sched |]; cbn [waited].
  - pose proof (thread_run_ok tid sched sj) as Hok.
    destruct (thread_run tid sched sj) as [r s2].
    cbn [fst snd] in *. subst r.
    destruct (alive_at tid s2); unfold emits; cbn [trace self server
      ctor_fault threads loops]; rewrite <- ?app_assoc; reflexivity.
  - change (alive_at tid sj) with (alive_at tid s). rewrite Hal.
    unfold sj, emits;
      cbn [trace self server ctor_fault threads loops fst snd with_self];
      rewrite <- ?app_assoc; reflexivity.
Qed.

(** What [redis_stop_listening] never changes: the thread the instance
    holds and the number of threads. *)
Lemma waited_threads (tid : nat) (wait : option (list tick)) (s : sys) :
  _redis_listener_thread (self (waited tid wait s))
    = _redis_listener_thread (self s) /\
  List.length (threads (waited tid wait s)) = List.length (threads s).
Proof.
  destruct wait as [sched |]; cbn [waited]; [| auto].
  destruct (thread_run_threads tid sched s)
    as [Ha [Ht | (_ & st & c & Ht)]]; rewrite Ha, Ht, ?length_update; auto.
Qed.

Lemma alive_at_emits (tid : nat) (l : list event) (s : sys) :
  alive_at tid (emits l s) = alive_at tid s.
Proof. reflexivity. Qed.

Lemma redis_stop_listening_threads (wait : option (list tick)) (s : sys) :
  fst (redis_stop_listening wait s) = Ok tt /\
  _redis_listener_thread (self (snd (redis_stop_listening wait s)))
    = _redis_listener_thread (self s) /\
  List.length (threads (snd (redis_stop_listening wait s)))
    = List.length (threads s) /\
  (forall tid,
     _redis_listener_thread (self s) = Some tid ->
     alive_at tid s = false ->
     alive_at tid (snd (redis_stop_listening wait s)) = false).
Proof.
  rewrite redis_stop_listening_eq.
  destruct (_redis_listener_thread (self s)) as [tid |] eqn:Htid.
  - destruct (alive_at tid s) eqn:Hal; cbn [fst snd].
    + destruct (waited_threads tid wait
                  (emits [Join tid] (with_self (set_running false) s)))
        as [Ha Hl].
      split; [reflexivity |]. split; [| split].
      * cbn [self emits]. rewrite Ha. cbn. exact Htid.
      * cbn [threads emits]. rewrite Hl. reflexivity.
      * intros ? [= <-] Hd. congruence.
    + split; [reflexivity |]. split; [exact Htid |].
      split; [reflexivity |]. intros ? [= <-] _. exact Hal.
  - cbn [fst snd]. split; [reflexivity |]. split; [exact Htid |].
    split; [reflexivity |]. discriminate.
Qed.

(** The flag when [redis_stop_listening] returns: cleared if the worker
    made no step, if it had begun its loop, or if it has ended; set again by
    a worker that began its target during the wait. *)
Lemma redis_stop_listening_flag (wait : option (list tick)) (s : sys) :
  (wait = None ->
   _redis_listener_running (self (snd (redis_stop_listening wait s))) = false) /\
  ((forall tid th,
      _redis_listener_thread (self s) = Some tid ->
      nth_error (threads s) tid = Some th ->
      alive th = true -> begun th = true) ->
   _redis_listener_running (self (snd (redis_stop_listening wait s))) = false) /\
  ((forall tid,
      _redis_listener_thread (self s) = Some tid ->
      alive_at tid (snd (redis_stop_listening wait s)) = false) ->
   _redis_listener_running (self (snd (redis_stop_listening wait s))) = false) /\
  (forall tid th sched,
     wait = Some sched ->
     _redis_listener_thread (self s) = Some tid ->
     nth_error (threads s) tid = Some th ->
     alive th = true -> begun th = false ->
     stops sched = false ->
     _redis_listener_running (self (snd (redis_stop_listening wait s))) = true /\
     alive_at tid (snd (redis_stop_listening wait s)) = true).
Proof.
  rewrite redis_stop_listening_eq.
  destruct (_redis_listener_thread (self s)) as [tid |] eqn:Htid.
  2: { cbn [snd]. repeat split; auto; intros; discriminate. }
  destruct (alive_at tid s) eqn:Hals.
  2: { cbn [snd]. split; [reflexivity |]. split; [reflexivity |].
       split; [reflexivity |].
       intros ? ? ? _ [= <-] H1 H2. unfold alive_at in Hals.
       rewrite H1 in Hals. congruence. }
  unfold alive_at in Hals.
  destruct (nth_error (threads s) tid) as [th |] eqn:Hth;
    [| discriminate Hals].
  rename Hals into Hal.
  cbn [snd self emits].
  set (sj := emits [Join tid] (with_self (set_running false) s)).
  assert (Hthj : nth_error (threads sj) tid = Some th) by exact Hth.
  destruct wait as [sched |]; cbn [waited].
  - destruct (thread_run_alive tid sched sj th Hthj Hal)
      as (st & c & s' & Hbody & Hs & _ & Halive & Hrun & Hst).
    destruct (thread_body_returns th sched sj)
      as (st1 & c1 & s1 & Hbody1 & _ & _ & Hbegun & Hfresh).
    rewrite Hbody in Hbody1. inversion Hbody1; subst st1 c1 s1. clear Hbody1.
    rewrite Hrun.
    split; [discriminate |]. split; [| split].
    + intros Hb. specialize (Hb tid th eq_refl Hth Hal).
      specialize (Hbegun Hb eq_refl). rewrite Hbegun in Hst.
      revert Hst.
      destruct (_redis_listener_running (self s'));
        [intros Hst; discriminate Hst | reflexivity].
    + intros Hd. specialize (Hd tid eq_refl).
      rewrite alive_at_emits, Halive in Hd. revert Hd.
      destruct (_redis_listener_running (self s'));
        [intros Hd; discriminate Hd | reflexivity].
    + intros ? ? ? [= <-] [= <-] Hth' _ Hb Hstops.
      rewrite Hth in Hth'. injection Hth' as <-.
      specialize (Hfresh Hb Hstops). rewrite Hfresh in Hst.
      rewrite alive_at_emits, Halive. revert Hst.
      destruct (_redis_listener_running (self s'));
        [auto | intros Hst; discriminate Hst].
  - split; [reflexivity |]. split; [reflexivity |]. split; [reflexivity |].
    intros; discriminate.
Qed.

(** After a wait during which the worker goes on, it is alive if and only
    if the flag is set: a worker that had begun its loop has ended. *)
Lemma redis_stop_listening_alive (sched : list tick) (s : sys) (tid : nat)
    (th : thread) :
  _redis_listener_thread (self s) = Some tid ->
  nth_error (threads s) tid = Some th ->
  alive th = true ->
  alive_at tid (snd (redis_stop_listening (Some sched) s))
    = _redis_listener_running
        (self (snd (redis_stop_listening (Some sched) s))) /\
  (begun th = true ->
   alive_at tid (snd (redis_stop_listening (Some sched) s)) = false).
Proof.
  intros Htid Hth Hal.
  assert (Heq : alive_at tid (snd (redis_stop_listening (Some sched) s))
                = _redis_listener_running
                    (self (snd (redis_stop_listening (Some sched) s)))).
  { rewrite redis_stop_listening_eq, Htid.
    assert (Hat : alive_at tid s = true)
      by (unfold alive_at; now rewrite Hth).
    rewrite Hat. cbn [snd waited]. rewrite alive_at_emits. cbn [self emits].
    set (sj := emits [Join tid] (with_self (set_running false) s)).
    assert (Hthj : nth_error (threads sj) tid = Some th) by exact Hth.
    destruct (thread_run_alive tid sched sj th Hthj Hal)
      as (st & c & s' & _ & _ & _ & Halive & Hrun & _).
    rewrite Hrun, Halive.
    destruct (_redis_listener_running (self s')); reflexivity. }
  split; [exact Heq |].
  intros Hb. rewrite Heq.
  apply (proj1 (proj2 (redis_stop_listening_flag (Some sched) s))).
  intros tid' th' Htid' Hth' _.
  rewrite Htid in Htid'. injection Htid' as <-.
  rewrite Hth in Hth'. injection Hth' as <-. exact Hb.
Qed.

(** C10.  [__redis_listen_query_stream] sets the running flag before it
    tests it, whatever the flag was: begun on the state a stop request
    leaves (flag cleared), it makes its first pass all the same, and with
    no later stop request it goes on looping.  In particular a worker that
    begins its target while [redis_stop_listening] waits for it sets the
    flag again: when the call returns, the flag is set and the worker is
    alive.  The flag is cleared when [redis_stop_listening] returns if the
    worker made no step during the wait, or had begun its loop before the
    call, or if there is no live worker. *)
Theorem listener_overwrites_stop_request :
  forall (handler : Handler) (last_id : cursor) (bt : Z) (s0 : sys),
    _redis_listener_running (self (snd (redis_stop_listening None s0)))
      = false /\
    (forall wait : option (list tick),
       (forall tid th,
          _redis_listener_thread (self s0) = Some tid ->
          nth_error (threads s0) tid = Some th ->
          alive th = true -> begun th = true) ->
       _redis_listener_running (self (snd (redis_stop_listening wait s0)))
         = false) /\
    (forall (tid : nat) (th : thread) (sched : list tick),
       _redis_listener_thread (self s0) = Some tid ->
       nth_error (threads s0) tid = Some th ->
       alive th = true -> begun th = false ->
       stops sched = false ->
       _redis_listener_running
         (self (snd (redis_stop_listening (Some sched) s0))) = true /\
       alive_at tid (snd (redis_stop_listening (Some sched) s0)) = true) /\
    forall s : sys,
      __redis_listen_query_stream handler last_id bt [] s
        = (Ok (Looping, last_id), with_self (set_running true) s) /\
      (forall (d : block_event) (sched : list tick),
         __redis_listen_query_stream handler last_id bt
           ({| before := []; during := d |} :: sched) s
         = match iteration handler bt d last_id
                   (with_self (set_running true) s) with
           | (Ok c', s') => listen_loop handler bt sched c' s'
           | (Raise e, s') => (Raise e, s')
           end) /\
      (forall sched : list tick,
         stops sched = false ->
         exists c' s',
           __redis_listen_query_stream handler last_id bt sched s
             = (Ok (Looping, c'), s')).
Proof.
  intros handler last_id bt s0. split; [| split; [| split]].
  - now apply (proj1 (redis_stop_listening_flag None s0)).
  - intros wait. apply (proj1 (proj2 (redis_stop_listening_flag wait s0))).
  - intros tid th sched.
    now apply (proj2 (proj2 (proj2 (redis_stop_listening_flag (Some sched) s0)))).
  - intros s. split; [reflexivity |]. split.
    + intros d sched. unfold __redis_listen_query_stream.
      unfold bind at 1. unfold modify at 1. rewrite listen_loop_cons.
      reflexivity.
    + intros sched Hstops. unfold __redis_listen_query_stream.
      unfold bind at 1. unfold modify at 1.
      destruct (listen_loop_invariant (fun _ _ => True) handler bt
                  (fun _ _ _ _ => I) (fun _ _ _ _ _ _ _ _ => I)
                  sched last_id (with_self (set_running true) s) I)
        as (st & c' & s' & Heq & _ & _ & Hloop).
      rewrite Hloop in Heq by (auto; reflexivity). eauto.
Qed.

Lemma set_running_false_idem (s : sys) :
  _redis_listener_running (self s) = false ->
  with_self (set_running false) s = s.
Proof.
  destruct s as [[] ? ? ? ? ?]; cbn. now intros ->.
Qed.

(** C7 (amended).  [redis_close] returns without error and a second call in
    a row changes nothing: the whole state, trace included, stays as the
    first call left it.  [redis_stop_listening] returns without error, the
    second time too.  When the worker has ended by the time the first call
    returns, or there was none, the second call only repeats the log line
    "Redis stream listener stopped": it changes nothing else, whatever the
    second wait would hold.  (When the worker is still alive, the second
    call waits for it again, and may find the flag set again and the worker
    ending.) *)
Theorem redis_close_and_stop_idempotent :
  forall (s : sys) (wait wait' : option (list tick)),
    fst (redis_close s) = Ok tt /\
    redis_close (snd (redis_close s)) = (Ok tt, snd (redis_close s)) /\
    fst (redis_stop_listening wait s) = Ok tt /\
    fst (redis_stop_listening wait' (snd (redis_stop_listening wait s)))
      = Ok tt /\
    ((forall tid,
        _redis_listener_thread (self s) = Some tid ->
        alive_at tid (snd (redis_stop_listening wait s)) = false) ->
     redis_stop_listening wait' (snd (redis_stop_listening wait s))
       = (Ok tt,
          emits [Log INFO Listener_stopped]
            (snd (redis_stop_listening wait s)))).
Proof.
  intros s wait wait'. split; [| split; [| split; [| split]]].
  - rewrite redis_close_eq. destruct (_redis_conn (self s)); reflexivity.
  - assert (Hnone : _redis_conn (self (snd (redis_close s))) = None).
    { rewrite redis_close_eq.
      destruct (_redis_conn (self s)) eqn:Hc; [reflexivity | exact Hc]. }
    rewrite (redis_close_eq (snd (redis_close s))), Hnone. reflexivity.
  - apply redis_stop_listening_threads.
  - apply redis_stop_listening_threads.
  - intros Hdead.
    pose proof (proj1 (proj2 (proj2 (redis_stop_listening_flag wait s))) Hdead)
      as Hflag.
    destruct (redis_stop_listening_threads wait s) as (_ & Hattr & _ & _).
    rewrite (redis_stop_listening_eq wait'), Hattr.
    rewrite (set_running_false_idem _ Hflag).
    destruct (_redis_listener_thread (self s)) as [tid |]; [| reflexivity].
    now rewrite (Hdead tid eq_refl).
Qed.

Lemma single_listener_update (f : thread -> thread) (tid : nat) (s s' : sys) :
  single_listener s ->
  _redis_listener_thread (self s') = _redis_listener_thread (self s) ->
  threads s' = update tid f (threads s) ->
  (forall th, alive (f th) = true -> alive th = true) ->
  single_listener s'.
Proof.
  intros H Ha Ht Hf k th. rewrite Ha, Ht, nth_error_update.
  destruct (k =? tid) eqn:Hk.
  - destruct (nth_error (threads s) k) as [th0 |] eqn:Hth; [| discriminate].
    cbn. intros [= <-] Hal. apply (H k th0 Hth). now apply Hf.
  - apply H.
Qed.

Lemma single_listener_thread_run (tid : nat) (sched : list tick) (s : sys) :
  single_listener s -> single_listener (snd (thread_run tid sched s)).
Proof.
  intros H.
  destruct (thread_run_threads tid sched s)
    as [Ha [Ht | (Hal & st & c & Ht)]].
  - eapply same_threads_single; [| exact H]. split; assumption.
  - intros k th. rewrite Ha, Ht, nth_error_update.
    destruct (k =? tid) eqn:Hk; [| apply H].
    apply Nat.eqb_eq in Hk. subst k. intros _ _.
    unfold alive_at in Hal.
    destruct (nth_error (threads s) tid) as [th0 |] eqn:Hth0;
      [| discriminate].
    exact (H tid th0 Hth0 Hal).
Qed.

Lemma single_listener_waited (tid : nat) (wait : option (list tick)) (s : sys) :
  single_listener s -> single_listener (waited tid wait s).
Proof.
  destruct wait as [sched |]; cbn [waited]; [| auto].
  apply single_listener_thread_run.
Qed.

Lemma single_listener_step (s : sys) (a : action) :
  single_listener s -> single_listener (step s a).
Proof.
  intros H. destruct a as [h p d | m | handler | wait | | tid sched | a];
    cbn [step].
  - eapply same_threads_single; [apply initialize_redis_same_threads | exact H].
  - eapply same_threads_single;
      [apply redis_add_message_stream_same_threads | exact H].
  - rewrite redis_start_listening_eq.
    assert (Hspawn :
      (forall tid, _redis_listener_thread (self s) = Some tid ->
                   alive_at tid s = false) ->
      single_listener (spawned handler s)).
    { intros Hdead k th. cbn. intros Hth Hal.
      destruct (Nat.lt_ge_cases k (List.length (threads s))) as [Hlt | Hge].
      - rewrite nth_error_app1 in Hth by assumption.
        pose proof (H k th Hth Hal) as Hk. apply Hdead in Hk.
        unfold alive_at in Hk. rewrite Hth in Hk. congruence.
      - rewrite nth_error_app2 in Hth by assumption.
        destruct (k - List.length (threads s)) as [| j] eqn:Hj;
          [| destruct j; discriminate].
        f_equal. lia. }
    destruct (_redis_listener_thread (self s)) as [tid |] eqn:Htid; cbn.
    + destruct (alive_at tid s) eqn:Hal; cbn.
      * eapply same_threads_single; [| exact H]. split; [reflexivity |].
        cbn. congruence.
      * apply Hspawn. intros ? [= <-]. exact Hal.
    + apply Hspawn. discriminate.
  - rewrite redis_stop_listening_eq. cbv zeta.
    assert (Hflag : single_listener (with_self (set_running false) s)).
    { eapply same_threads_single; [| exact H]. split; reflexivity. }
    destruct (_redis_listener_thread (self s)) as [tid |] eqn:Htid; cbn [snd].
    + destruct (alive_at tid s); cbn [snd].
      * eapply same_threads_single;
          [| apply (single_listener_waited tid wait
                      (emits [Join tid] (with_self (set_running false) s)))].
        -- split; reflexivity.
        -- eapply same_threads_single; [| exact Hflag]. split; reflexivity.
      * eapply same_threads_single; [| exact Hflag]. split; reflexivity.
    + eapply same_threads_single; [| exact Hflag]. split; reflexivity.
  - eapply same_threads_single; [apply redis_close_same_threads | exact H].
  - apply single_listener_thread_run, H.
  - eapply same_threads_single; [apply env_same_threads | exact H].
Qed.

Lemma single_listener_run (l : list action) (s : sys) :
  single_listener s -> single_listener (run s l).
Proof.
  revert s. induction l as [| a l IH]; intros s H; [exact H |].
  apply IH, single_listener_step, H.
Qed.

Lemma filter_alive_nil (l : list thread) :
  (forall k th, nth_error l k = Some th -> alive th = false) ->
  filter alive l = [].
Proof.
  induction l as [| x l IH]; intros H; [reflexivity |].
  cbn. rewrite (H 0 x eq_refl). apply IH.
  intros k th Hk. exact (H (S k) th Hk).
Qed.

Lemma one_index_alive (l : list thread) :
  (forall i j x y,
     nth_error l i = Some x -> nth_error l j = Some y ->
     alive x = true -> alive y = true -> i = j) ->
  List.length (filter alive l) <= 1.
Proof.
  induction l as [| a l IH]; intros H; cbn; [lia |].
  destruct (alive a) eqn:Ha.
  - rewrite filter_alive_nil; [cbn; lia |].
    intros k th Hk. destruct (alive th) eqn:Hth; [| reflexivity].
    discriminate (H 0 (S k) a th eq_refl Hk Ha Hth).
  - apply IH. intros i j x y Hi Hj Hx Hy.
    assert (S i = S j) by exact (H (S i) (S j) x y Hi Hj Hx Hy). lia.
Qed.

Lemma single_listener_alive_threads (s : sys) :
  single_listener s -> alive_threads s <= 1.
Proof.
  intros H. apply one_index_alive. intros i j x y Hi Hj Hx Hy.
  pose proof (H i x Hi Hx). pose proof (H j y Hj Hy). congruence.
Qed.

(** C8.  Called while the thread it holds is alive, [redis_start_listening]
    logs a warning and returns: no thread is created and nothing else
    changes.  Hence, whatever the instance is asked and whatever its worker
    and its surroundings do, at most one listener thread is alive, and it is
    the one the instance holds; starting twice leaves exactly one.  This
    holds of every state a fresh instance can reach. *)
Theorem redis_start_listening_single_worker :
  forall (s : sys) (handler handler' : option Handler),
    (forall tid,
       _redis_listener_thread (self s) = Some tid ->
       alive_at tid s = true ->
       redis_start_listening handler s
         = (Ok tt, emits [Log WARNING Already_running] s)) /\
    (single_listener s ->
     forall acts : list action,
       single_listener (run s acts) /\ alive_threads (run s acts) <= 1) /\
    (single_listener s ->
     alive_threads
       (run s [Call_redis_start_listening handler;
               Call_redis_start_listening handler']) = 1) /\
    (forall (sv : redis_server) (fault : option exn) (acts : list action),
       alive_threads (run (fresh sv fault) acts) <= 1).
Proof.
  intros s handler handler'. split; [| split; [| split]];
    [| | | intros sv fault acts; apply single_listener_alive_threads,
             single_listener_run; intros [| tid] th H; discriminate H].
  - intros tid Htid Hal. rewrite redis_start_listening_eq, Htid, Hal.
    reflexivity.
  - intros H acts. pose proof (single_listener_run acts s H) as Hr.
    split; [exact Hr | now apply single_listener_alive_threads].
  - intros H.
    pose proof (single_listener_run
                  [Call_redis_start_listening handler;
                   Call_redis_start_listening handler'] s H) as Hr.
    apply single_listener_alive_threads in Hr.
    enough (1 <= alive_threads
                   (run s [Call_redis_start_listening handler;
                           Call_redis_start_listening handler'])) by lia.
    clear Hr. cbn [run fold_left step].
    assert (Hone : forall h x, 1 <= alive_threads x ->
                     1 <= alive_threads (snd (redis_start_listening h x))).
    { intros h x Hx. rewrite redis_start_listening_eq.
      destruct (_redis_listener_thread (self x)) as [tid |].
      - destruct (alive_at tid x); cbn [snd]; [exact Hx |].
        unfold alive_threads, spawned, new_thread; cbn. rewrite filter_app, length_app.
        cbn. lia.
      - unfold alive_threads, spawned, new_thread; cbn. rewrite filter_app, length_app.
        cbn. lia. }
    apply Hone. rewrite redis_start_listening_eq.
    destruct (_redis_listener_thread (self s)) as [tid |] eqn:Htid.
    + destruct (alive_at tid s) eqn:Hal; cbn [snd].
      * unfold alive_threads, alive_at in *. cbn [threads emits].
        destruct (nth_error (threads s) tid) as [th |] eqn:Hth;
          [| discriminate].
        apply nth_error_In in Hth.
        assert (Hin : In th (filter alive (threads s)))
          by (apply filter_In; auto).
        destruct (filter alive (threads s)); [contradiction | cbn; lia].
      * unfold alive_threads, spawned, new_thread; cbn. rewrite filter_app, length_app.
        cbn. lia.
    + unfold alive_threads, spawned, new_thread; cbn. rewrite filter_app, length_app.
      cbn. lia.
Qed.

(** * The properties at work *)

(** On a server that cannot be reached, [initialize_redis] raises. *)
Lemma initialize_redis_connection_error_escapes_witness :
  fst (initialize_redis default_host default_port default_db
         (fresh down_server None)) = Raise xtrim_on_None /\
  _redis_conn
    (self (snd (initialize_redis default_host default_port default_db
                  (fresh down_server None)))) = None /\
  exists e,
    In (Log ERROR (Connection_error e))
       (trace (snd (initialize_redis default_host default_port default_db
                      (fresh down_server None)))).
Proof.
  apply (initialize_redis_connection_error_escapes (fresh down_server None)
           default_host default_port default_db).
  right. split; reflexivity.
Defined.

(** On a server whose probe fails, [initialize_redis] returns the handle. *)
Lemma initialize_redis_keeps_handle_after_failed_ping_witness :
  fst (initialize_redis default_host default_port default_db
         (fresh mute_server None))
    = Ok (Some {| host := default_host; port := default_port;
                  db := default_db |}) /\
  _redis_conn
    (self (snd (initialize_redis default_host default_port default_db
                  (fresh mute_server None))))
    = Some {| host := default_host; port := default_port; db := default_db |} /\
  In (Log ERROR Connection_failed)
     (trace (snd (initialize_redis default_host default_port default_db
                    (fresh mute_server None)))).
Proof.
  apply (initialize_redis_keeps_handle_after_failed_ping
           (fresh mute_server None) default_host default_port default_db);
    [reflexivity | reflexivity | reflexivity | cbn; lia].
Defined.

(** C9 (as claimed it fails).  With capacity 2, on a server that keeps the
    three entries of the stream in one node, [initialize_redis] returns and
    the stream still holds its three entries. *)
Lemma initialize_redis_trim_counterexample :
  fst (initialize_redis default_host default_port default_db
         (with_self (set_capacity 2) (fresh full_server None)))
    = Ok (Some default_conn) /\
  entries
    (server (snd (initialize_redis default_host default_port default_db
                    (with_self (set_capacity 2) (fresh full_server None)))))
    = [(1, one); (2, two); (3, three)] /\
  ~ (Z.of_nat
       (List.length
          (entries
             (server (snd (initialize_redis default_host default_port
                             default_db
                             (with_self (set_capacity 2)
                                (fresh full_server None)))))))
     <= 2)%Z.
Proof.
  split; [reflexivity |]. split; [reflexivity |].
  vm_compute. intros H. apply H. reflexivity.
Qed.

(** With capacity 2, on a server that keeps each entry in a node of its
    own, a stream of three entries keeps its last two. *)
Lemma initialize_redis_trims_approximately_witness :
  (exists k,
     k <= 3 - 2 /\
     entries
       (server (snd (initialize_redis default_host default_port default_db
                       (with_self (set_capacity 2) (fresh fine_server None)))))
       = skipn k [(1, one); (2, two); (3, three)]) /\
  lastn 2
    (entries
       (server (snd (initialize_redis default_host default_port default_db
                       (with_self (set_capacity 2) (fresh fine_server None))))))
    = [(2, two); (3, three)].
Proof.
  destruct (initialize_redis_trims_approximately
              (with_self (set_capacity 2) (fresh fine_server None))
              (snd (initialize_redis default_host default_port default_db
                      (with_self (set_capacity 2) (fresh fine_server None))))
              default_host default_port default_db
              (Some default_conn) eq_refl)
    as (_ & _ & _ & Hk & Hlast & _).
  split; [exact Hk | exact Hlast].
Defined.

(** C3 (as claimed it fails).  On a fresh instance, whose connection is
    null, [redis_add_message_stream] raises an [AttributeError], not a
    [NotConnectedError]. *)
Lemma redis_add_message_stream_counterexample :
  fst (redis_add_message_stream hello (fresh idle_server None))
    = Raise xadd_on_None /\
  exn_class xadd_on_None <> "NotConnectedError".
Proof. split; [reflexivity | discriminate]. Qed.

Lemma redis_add_message_stream_spec_witness :
  (fst (redis_add_message_stream hello (fresh idle_server None))
     = Raise xadd_on_None /\
   server (snd (redis_add_message_stream hello (fresh idle_server None)))
     = idle_server) /\
  (fst (redis_add_message_stream hello (connected idle_server)) = Ok 1 /\
   entries (server (snd (redis_add_message_stream hello
                           (connected idle_server))))
     = [(1, hello)]) /\
  (fst (redis_add_message_stream [] (connected idle_server))
     = Raise empty_fields /\
   server (snd (redis_add_message_stream [] (connected idle_server)))
     = server (connected idle_server) /\
   commands (trace (snd (redis_add_message_stream [] (connected idle_server))))
     = commands (trace (connected idle_server))).
Proof.
  split; [| split].
  - exact (proj1 (redis_add_message_stream_spec (fresh idle_server None) hello)
             eq_refl).
  - apply (proj1 (proj2 (redis_add_message_stream_spec
                           (connected idle_server) hello))
             {| host := default_host; port := default_port; db := default_db |});
      [reflexivity | reflexivity | discriminate].
  - exact (proj2 (proj2 (redis_add_message_stream_spec
                           (connected idle_server) []))
             {| host := default_host; port := default_port; db := default_db |}
             eq_refl eq_refl).
Defined.

(** A handler that returns advances the cursor to the entry; one that
    raises leaves it. *)
Lemma process_advances_cursor_iff_handler_returns_witness :
  fst (process accepts (At 1) (2, two) (connected full_server)) = Ok (At 2) /\
  (fst (process (raises_on two boom) (At 1) (2, two) (connected full_server))
     = Ok (At 1) /\
   In (Log ERROR (Error_processing 2 boom))
      (trace (snd (process (raises_on two boom) (At 1) (2, two)
                     (connected full_server))))) /\
  (fst (process (raises_on two boom) (At 1) (2, two) (connected full_server))
     = Ok (At 2)
   <-> snd (raises_on two boom (deliveries (trace (connected full_server))) two)
       = None) /\
  iteration accepts 2000 Timeout (At 1) (connected full_server)
    = process accepts (At 1) (2, two)
        (emits [read_cmd (At 1) 2000] (connected full_server)) /\
  iteration accepts 2000 (Arrival two) (At 3) (connected full_server)
    = process accepts (At 3) (4, two)
        (with_server (fun sv => snd (server_xadd two sv))
           (emits [read_cmd (At 3) 2000] (connected full_server))).
Proof.
  split; [| split; [| split; [| split]]].
  - exact (proj1 (process_advances_cursor_iff_handler_returns
                    accepts (At 1) 2 two (connected full_server)) eq_refl).
  - exact (proj1 (proj2 (process_advances_cursor_iff_handler_returns
                           (raises_on two boom) (At 1) 2 two
                           (connected full_server))) boom eq_refl).
  - apply (proj1 (proj2 (proj2 (process_advances_cursor_iff_handler_returns
                                  (raises_on two boom) (At 1) 2 two
                                  (connected full_server))))).
    discriminate.
  - exact (proj1 (proj2 (proj2 (proj2
             (process_advances_cursor_iff_handler_returns
                accepts (At 1) 2 two (connected full_server)))))
             2000%Z Timeout
             {| host := default_host; port := default_port; db := default_db |}
             (connected full_server) eq_refl eq_refl eq_refl).
  - exact (proj2 (proj2 (proj2 (proj2
             (process_advances_cursor_iff_handler_returns
                accepts (At 3) 4 two (connected full_server)))))
             2000%Z
             {| host := default_host; port := default_port; db := default_db |}
             (connected full_server) eq_refl eq_refl eq_refl).
Defined.



(** The connection is lost during the first read; the server comes back and
    entries arrive, and the listener reads none of them. *)
Lemma listener_never_reconnects_witness :
  exists st s' k,
    listen_loop accepts 2000
      ({| before := []; during := Disconnect |} :: server_returns) Dollar
      (with_self (set_running true) (connected idle_server))
      = (Ok (st, Dollar), s') /\
    _redis_conn (self s') = None /\
    trace s' = trace (with_self (set_running true) (connected idle_server))
               ++ disconnect_lines Dollar 2000
               ++ List.concat (repeat retry_lines k) /\
    reads (trace s')
      = reads (trace (with_self (set_running true) (connected idle_server)))
        ++ [Dollar] /\
    handled (trace s')
      = handled (trace (with_self (set_running true) (connected idle_server))) /\
    (stops server_returns = false -> st = Looping).
Proof.
  apply (listener_never_reconnects accepts 2000 Dollar
           (with_self (set_running true) (connected idle_server))
           {| host := default_host; port := default_port; db := default_db |}
           server_returns); reflexivity.
Defined.

Lemma single_listener_listening : single_listener listening.
Proof.
  intros tid th. destruct tid as [| [| tid]]; cbn; intros H Ha;
    try discriminate H; reflexivity.
Qed.

(** A second start on a listening instance only warns, and however the
    instance is driven afterwards one thread at most is alive. *)
Lemma redis_start_listening_single_worker_witness :
  redis_start_listening None listening
    = (Ok tt, emits [Log WARNING Already_running] listening) /\
  alive_threads
    (run listening
       [Call_redis_start_listening None;
        Worker 0 three_arrivals;
        Call_redis_stop_listening (Some []);
        Call_redis_start_listening (Some accepts)]) <= 1 /\
  alive_threads
    (run listening
       [Call_redis_start_listening None;
        Call_redis_start_listening (Some accepts)]) = 1.
Proof.
  split; [| split].
  - exact (proj1 (redis_start_listening_single_worker listening None None)
             0 eq_refl eq_refl).
  - exact (proj2 (proj1 (proj2 (redis_start_listening_single_worker
                                  listening None None))
                    single_listener_listening _)).
  - exact (proj1 (proj2 (proj2 (redis_start_listening_single_worker
                                  listening None (Some accepts))))
             single_listener_listening).
Defined.

(** A listener begun after a stop request runs all the same; begun during
    the wait of [redis_stop_listening], it leaves the flag set. *)
Lemma listener_overwrites_stop_request_witness :
  (_redis_listener_running
     (self (snd (redis_stop_listening (Some (quiet 1)) listening))) = true /\
   alive_at 0 (snd (redis_stop_listening (Some (quiet 1)) listening))
     = true) /\
  _redis_listener_running
    (self (snd (redis_stop_listening (Some (quiet 1)) listener_begun)))
    = false /\
  exists c' s',
    __redis_listen_query_stream accepts Dollar 2000 three_arrivals
      (snd (redis_stop_listening None listening))
      = (Ok (Looping, c'), s').
Proof.
  split; [| split].
  - exact (proj1 (proj2 (proj2 (listener_overwrites_stop_request
                                  accepts Dollar 2000 listening)))
             0 (new_thread None) (quiet 1)
             eq_refl eq_refl eq_refl eq_refl eq_refl).
  - apply (proj1 (proj2 (listener_overwrites_stop_request
                           accepts Dollar 2000 listener_begun))
             (Some (quiet 1))).
    intros [| tid] th Htid Hth Hal; [| discriminate Htid].
    vm_compute in Hth. injection Hth as <-. reflexivity.
  - exact (proj2 (proj2 (proj2 (proj2 (proj2
             (listener_overwrites_stop_request accepts Dollar 2000
                listening)))
             (snd (redis_stop_listening None listening))))
             three_arrivals eq_refl).
Defined.

(** C7 (as claimed it fails).  The listener thread has been started and has
    not yet begun its target.  A first [redis_stop_listening] clears the
    flag and waits for the thread; during the wait the thread begins its
    target, which sets the flag again, and makes a pass.  The call returns
    with the flag set and the thread alive.  A second call in a row clears
    the flag again and waits; the thread comes to the test of its loop and
    ends.  The second call has changed the flag and the thread. *)
Lemma redis_stop_listening_twice_counterexample :
  fst (redis_stop_listening (Some (quiet 1)) listening) = Ok tt /\
  _redis_listener_running (self stopped_once) = true /\
  alive_at 0 stopped_once = true /\
  fst (redis_stop_listening (Some []) stopped_once) = Ok tt /\
  _redis_listener_running (self stopped_twice) = false /\
  alive_at 0 stopped_twice = false /\
  self stopped_twice <> self stopped_once /\
  alive_threads stopped_twice <> alive_threads stopped_once.
Proof.
  split; [vm_compute; reflexivity |]. split; [vm_compute; reflexivity |].
  split; [vm_compute; reflexivity |]. split; [vm_compute; reflexivity |].
  split; [vm_compute; reflexivity |]. split; [vm_compute; reflexivity |].
  split.
  - intros H. apply (f_equal _redis_listener_running) in H.
    vm_compute in H. discriminate H.
  - vm_compute. intros H. discriminate H.
Qed.

(** The thread of the listener has begun its loop: it ends during the wait
    of a first [redis_stop_listening], and a second call only repeats the
    log line. *)
Lemma redis_close_and_stop_idempotent_witness :
  redis_stop_listening None
    (snd (redis_stop_listening (Some []) listener_begun))
  = (Ok tt,
     emits [Log INFO Listener_stopped]
       (snd (redis_stop_listening (Some []) listener_begun))).
Proof.
  apply (proj2 (proj2 (proj2 (proj2 (redis_close_and_stop_idempotent
                                       listener_begun (Some []) None))))).
  intros [| tid] Htid; [reflexivity | discriminate Htid].
Defined.

(** * Further properties *)

(** ** No error within Exception leaves the listener *)

Lemma loop_frame_refl (s : sys) : loop_frame s s.
Proof. unfold loop_frame. destruct s as [[] ? ? ? ? ?]; cbn; auto. Qed.

Lemma loop_frame_trans (s1 s2 s3 : sys) :
  loop_frame s1 s2 -> loop_frame s2 s3 -> loop_frame s1 s3.
Proof.
  unfold loop_frame. intros (H1 & H2 & H3 & H4) (K1 & K2 & K3 & K4).
  rewrite K1, H1, K2, K3, K4. destruct (self s1); cbn; auto.
Qed.

Lemma frame_loop_frame (s s' : sys) : frame s s' -> loop_frame s s'.
Proof.
  intros H. destruct (frame_running s s' H) as (Hr & _).
  destruct H as (H1 & H2 & H3 & H4). unfold loop_frame. rewrite Hr.
  split; [| auto]. rewrite H1 at 1. destruct (self s); reflexivity.
Qed.

Lemma env_loop_frame (s : sys) (a : env_action) : loop_frame s (env_apply s a).
Proof. unfold loop_frame. destruct a, s as [[] ? ? ? ? ?]; cbn; auto. Qed.

Lemma loop_frame_attributes (s s' : sys) :
  loop_frame s s' ->
  redis_host (self s') = redis_host (self s) /\
  redis_port (self s') = redis_port (self s) /\
  redis_db (self s') = redis_db (self s) /\
  query_list_capacity (self s') = query_list_capacity (self s) /\
  _redis_listener_thread (self s') = _redis_listener_thread (self s) /\
  _redis_listener_loop (self s') = _redis_listener_loop (self s) /\
  threads s' = threads s.
Proof.
  intros (H & Ht & _). rewrite H, Ht. destruct (self s); cbn. auto 10.
Qed.

(** The loop returns, and leaves alone what [loop_frame] says. *)
Lemma listen_loop_returns (handler : Handler) (bt : Z) (sched : list tick)
    (c : cursor) (s : sys) :
  exists st c' s',
    listen_loop handler bt sched c s = (Ok (st, c'), s') /\
    loop_frame s s' /\
    st = (if _redis_listener_running (self s') then Looping else Exited).
Proof.
  destruct (listen_loop_invariant (fun _ s' => loop_frame s s') handler bt)
    with (sched := sched) (c := c) (s := s)
    as (st & c' & s' & Heq & Hs & Hst & _).
  - intros _ s0 a H. eapply loop_frame_trans; [exact H |].
    apply env_loop_frame.
  - intros c0 s0 d c1 s1 H _ Hit. eapply loop_frame_trans; [exact H |].
    apply frame_loop_frame.
    pose proof (iteration_frame handler bt d c0 s0) as Hf.
    now rewrite Hit in Hf.
  - apply loop_frame_refl.
  - eauto 6.
Qed.

(** X1.  No exception derived from [Exception] leaves the listener:
    whatever the handler raises within [Exception] (the exceptions of the
    model) and whatever happens to the connection and the server, the loop
    and the wrapper around it return.  They change no attribute of the
    instance but the connection and the running flag (the address, the
    capacity, the thread and the event loop it holds stay as they are) and
    create no thread.  What is raised outside [Exception]
    ([asyncio.CancelledError], [KeyboardInterrupt], [SystemExit]) is caught
    by no [except] clause of the listener and is not covered. *)
Theorem listener_absorbs_every_error :
  forall (handler : Handler) (last_id : cursor) (bt : Z) (sched : list tick)
         (s : sys),
    (exists st c' s',
       __redis_listen_query_stream handler last_id bt sched s
         = (Ok (st, c'), s') /\
       redis_host (self s') = redis_host (self s) /\
       redis_port (self s') = redis_port (self s) /\
       redis_db (self s') = redis_db (self s) /\
       query_list_capacity (self s') = query_list_capacity (self s) /\
       _redis_listener_thread (self s') = _redis_listener_thread (self s) /\
       _redis_listener_loop (self s') = _redis_listener_loop (self s) /\
       threads s' = threads s) /\
    (exists r s', listener_wrapper handler sched s = (Ok r, s')).
Proof.
  intros handler last_id bt sched s.
  assert (Hrun : forall c, exists st c' s',
            __redis_listen_query_stream handler c bt sched s
              = (Ok (st, c'), s') /\ loop_frame s s').
  { intros c. unfold __redis_listen_query_stream.
    unfold bind at 1. unfold modify at 1.
    destruct (listen_loop_returns handler bt sched c
                (with_self (set_running true) s))
      as (st & c' & s' & Heq & Hf & _).
    exists st, c', s'. split; [exact Heq |].
    eapply loop_frame_trans; [| exact Hf].
    unfold loop_frame. destruct s as [[] ? ? ? ? ?]; cbn; auto. }
  split.
  - destruct (Hrun last_id) as (st & c' & s' & Heq & Hf).
    exists st, c', s'. split; [exact Heq |].
    now apply loop_frame_attributes.
  - unfold listener_wrapper.
    assert (Hw : forall bt', exists st c' s',
              __redis_listen_query_stream handler Dollar bt' sched s
                = (Ok (st, c'), s')).
    { intros bt'. unfold __redis_listen_query_stream.
      unfold bind at 1. unfold modify at 1.
      destruct (listen_loop_returns handler bt' sched Dollar
                  (with_self (set_running true) s))
        as (st & c' & s' & Heq & _). eauto. }
    destruct (Hw 2000%Z) as (st & c' & s' & Heq).
    rewrite (finishing_ok _ _ _ _ Heq). eauto.
Qed.

(** ** A stop request ends the loop *)


(** A loop that finds a stop request at its test returns there, and the
    passes that would follow are not made. *)
Lemma listen_loop_stops (handler : Handler) (bt : Z) (sched1 : list tick)
    (t : tick) (sched2 : list tick) (c : cursor) (s : sys) :
  existsb is_stop (before t) = true ->
  exists c' s',
    listen_loop handler bt (sched1 ++ t :: sched2) c s = (Ok (Exited, c'), s') /\
    listen_loop handler bt (sched1 ++ [t]) c s = (Ok (Exited, c'), s') /\
    _redis_listener_running (self s') = false.
Proof.
  intros Hstop. revert c s. induction sched1 as [| t1 sched1 IH]; intros c s.
  - cbn [app]. rewrite !listen_loop_cons.
    rewrite (env_stopped (before t) s) by (left; exact Hstop).
    do 2 eexists. split; [reflexivity |]. split; [reflexivity |].
    apply env_stopped. left; exact Hstop.
  - cbn [app]. rewrite !listen_loop_cons.
    destruct (_redis_listener_running
                (self (fold_left env_apply (before t1) s))) eqn:Hrun.
    + destruct (iteration_returns handler bt (during t1) c
                  (fold_left env_apply (before t1) s)) as [c1 Hc1].
      destruct (iteration handler bt (during t1) c
                  (fold_left env_apply (before t1) s)) as [r1 s1].
      cbn in Hc1. subst r1. apply IH.
    + do 2 eexists. split; [reflexivity |]. split; [reflexivity |].
      exact Hrun.
Qed.


(** X3.  A worker that meets a stop request ends: the thread runs its
    target, from the start or from where it was, the wrapper's [finally]
    clears the running flag, and the thread is no longer alive, so that a
    later [redis_start_listening] can start another. *)
Theorem worker_ends_on_stop_request :
  forall (tid : nat) (th : thread) (sched1 : list tick) (t : tick)
         (sched2 : list tick) (s : sys),
    nth_error (threads s) tid = Some th ->
    alive th = true ->
    existsb is_stop (before t) = true ->
    fst (thread_run tid (sched1 ++ t :: sched2) s) = Ok tt /\
    alive_at tid (snd (thread_run tid (sched1 ++ t :: sched2) s)) = false /\
    _redis_listener_running
      (self (snd (thread_run tid (sched1 ++ t :: sched2) s))) = false /\
    List.length (threads (snd (thread_run tid (sched1 ++ t :: sched2) s)))
      = List.length (threads s).
Proof.
  intros tid th sched1 t sched2 s Hth Hal Hstop.
  rewrite thread_run_eq, Hth, Hal.
  assert (Hbody : exists c' s',
    thread_body th (sched1 ++ t :: sched2) s = (Ok (Exited, c'), s') /\
    _redis_listener_running (self s') = false /\
    threads s' = threads s).
  { unfold thread_body. destruct (begun th).
    - destruct (listen_loop_stops (target th) 2000 sched1 t sched2
                  (position th) s Hstop) as (c' & s' & Heq & _ & Hr).
      destruct (listen_loop_returns (target th) 2000 (sched1 ++ t :: sched2)
                  (position th) s) as (st0 & c0 & s0 & Heq0 & Hf & _).
      rewrite Heq in Heq0. inversion Heq0; subst.
      rewrite (finishing_ok _ _ _ _ Heq). do 2 eexists.
      split; [reflexivity |]. split; [reflexivity |]. apply Hf.
    - unfold _redis_run_listener_async, listener_wrapper,
        __redis_listen_query_stream.
      unfold bind at 1 2 3. unfold get at 1. unfold modify at 1 2.
      set (s1 := with_self (set_loop (Some (loops s))) (with_loops S s)).
      destruct (listen_loop_stops (target th) 2000 sched1 t sched2 Dollar
                  (with_self (set_running true) s1) Hstop)
        as (c' & s' & Heq & _ & Hr).
      destruct (listen_loop_returns (target th) 2000 (sched1 ++ t :: sched2)
                  Dollar (with_self (set_running true) s1))
        as (st0 & c0 & s0 & Heq0 & Hf & _).
      rewrite Heq in Heq0. inversion Heq0; subst.
      assert (Heq' : (modify (with_self (set_running true)) ;;;
                      listen_loop (target th) 2000 (sched1 ++ t :: sched2)
                        Dollar) s1 = (Ok (Exited, c0), s0)) by exact Heq.
      rewrite (finishing_ok _ _ _ _ Heq'). do 2 eexists.
      split; [reflexivity |]. split; [reflexivity |].
      cbn. destruct Hf as (_ & Ht & _). exact Ht. }
  destruct Hbody as (c' & s' & Heq & Hr & Ht). rewrite Heq. cbn.
  split; [reflexivity |]. split; [| split].
  - unfold alive_at. cbn [threads with_threads].
    rewrite nth_error_update, Nat.eqb_refl.
    destruct (nth_error (threads s') tid); reflexivity.
  - exact Hr.
  - now rewrite length_update, Ht.
Qed.

(** ** What the listener delivers *)

Lemma after_app (i : entry_id) (l l' : list entry) :
  after i (l ++ l') = after i l ++ after i l'.
Proof. apply filter_app. Qed.

Lemma after_all (i : entry_id) (l : list entry) :
  Forall (fun e : entry => i < fst e) l -> after i l = l.
Proof.
  induction 1 as [| e l He _ IH]; [reflexivity |].
  unfold after, entry, entry_id in *. cbn [filter].
  apply Nat.ltb_lt in He. now rewrite He, IH.
Qed.

Lemma after_none (i : entry_id) (l : list entry) :
  Forall (fun e : entry => fst e <= i) l -> after i l = [].
Proof.
  induction 1 as [| e l He _ IH]; [reflexivity |].
  unfold after, entry, entry_id in *. cbn [filter].
  apply Nat.ltb_ge in He. now rewrite He.
Qed.

Lemma after_In (i : entry_id) (l : list entry) (e : entry) :
  In e (after i l) -> i < fst e /\ In e l.
Proof.
  unfold after. rewrite filter_In, Nat.ltb_lt. tauto.
Qed.

(** On a stream in increasing order, reading after the first entry found
    gives the rest of what was found. *)
Lemma after_next (l : list entry) (i : entry_id) (e : entry) (rest : list entry) :
  StronglySorted (fun a b : entry => fst a < fst b) l ->
  after i l = e :: rest -> after (fst e) l = rest.
Proof.
  intros Hs. revert rest. induction Hs as [| a l Hs IH Ha]; intros rest;
    [discriminate |].
  unfold after, entry, entry_id in *. cbn [filter].
  destruct (i <? fst a) eqn:Hi.
  - intros [= <- <-]. rewrite Nat.ltb_irrefl.
    apply Nat.ltb_lt in Hi.
    transitivity l; [apply after_all; exact Ha |].
    symmetry. apply after_all.
    eapply Forall_impl; [| exact Ha]. cbn.
    unfold entry, entry_id in *. intros; lia.
  - intros H. specialize (IH rest H).
    assert (Hin : In e l).
    { apply (after_In i l e). unfold after. rewrite H. now left. }
    rewrite Forall_forall in Ha. specialize (Ha e Hin).
    assert (Hlt : (fst e <? fst a) = false) by (apply Nat.ltb_ge; lia).
    now rewrite Hlt.
Qed.

Lemma StronglySorted_snoc {A} (R : A -> A -> Prop) (l : list A) (x : A) :
  StronglySorted R l -> Forall (fun a => R a x) l ->
  StronglySorted R (l ++ [x]).
Proof.
  induction 1 as [| a l Hs IH Ha]; intros Hx; cbn.
  - constructor; constructor.
  - inversion Hx; subst. constructor; [now apply IH |].
    apply Forall_app. split; [exact Ha | now constructor].
Qed.

Lemma well_formed_xadd (m : message) (sv : redis_server) :
  well_formed sv -> well_formed (snd (server_xadd m sv)).
Proof.
  intros [Hs Hb]. split; cbn.
  - apply StronglySorted_snoc; [exact Hs |].
    eapply Forall_impl; [| exact Hb]. cbn. intros; lia.
  - apply Forall_app. split.
    + eapply Forall_impl; [| exact Hb]. cbn. intros; lia.
    + constructor; [cbn; lia | constructor].
Qed.

Lemma well_formed_env (s : sys) (a : env_action) :
  well_formed (server s) ->
  well_formed (server (env_apply s a)) /\
  last_generated (server s) <= last_generated (server (env_apply s a)).
Proof.
  intros H. destruct a as [m | b |]; cbn.
  - split; [now apply well_formed_xadd | lia].
  - split; [exact H | lia].
  - split; [exact H | lia].
Qed.

Lemma ready_after (s : sys) (c : cursor) (e : entry) :
  ready s c = Some e ->
  exists rest, after (resolve (server s) c) (entries (server s)) = e :: rest.
Proof.
  unfold ready.
  destruct (after (resolve (server s) c) (entries (server s))) as [| e' rest];
    [discriminate |].
  intros [= <-]. eauto.
Qed.

Lemma ready_none (s : sys) (c : cursor) :
  ready s c = None ->
  after (resolve (server s) c) (entries (server s)) = [].
Proof.
  unfold ready.
  destruct (after (resolve (server s) c) (entries (server s)));
    [reflexivity | discriminate].
Qed.

Lemma process_delivery (handler : Handler) (c : cursor) (e : entry) (s : sys) :
  exists c' s',
    process handler c e s = (Ok c', s') /\
    server s' = server s /\
    handled (trace s') = handled (trace s) ++ [e] /\
    (c' = At (fst e) \/ c' = c) /\
    (returns_always handler -> c' = At (fst e)).
Proof.
  pose proof (process_server handler c e s) as [Hsv _].
  destruct e as [p data].
  pose proof (process_cursor handler c p data s) as Hc.
  pose proof (process_handled handler c p data s) as Hh.
  destruct (process handler c (p, data) s) as [r1 s1]. cbn [fst snd] in *.
  exists (match snd (handler (deliveries (trace s)) data) with
          | Some _ => c
          | None => At p
          end), s1.
  split; [now rewrite Hc |]. split; [exact Hsv |]. split; [exact Hh |].
  split.
  - destruct (snd (handler _ data)); auto.
  - intros Hret. now rewrite Hret.
Qed.

(** What a pass does to the cursor, the stream and the deliveries: it
    delivers nothing and keeps the cursor and the stream, or it delivers the
    entry that a read after the cursor finds first or the one that arrives
    during the read, and then the cursor is that entry's identifier if the
    handler returned. *)
Lemma iteration_delivery (handler : Handler) (bt : Z) (d : block_event)
    (c : cursor) (s : sys) :
  exists c' s',
    iteration handler bt d c s = (Ok c', s') /\
    ((c' = c /\ entries (server s') = entries (server s) /\
      last_generated (server s') = last_generated (server s) /\
      handled (trace s') = handled (trace s)) \/
     (exists e,
        ready s c = Some e /\ server s' = server s /\
        handled (trace s') = handled (trace s) ++ [e] /\
        (c' = At (fst e) \/ c' = c) /\
        (returns_always handler -> c' = At (fst e))) \/
     (exists m,
        ready s c = None /\ d = Arrival m /\
        server s' = snd (server_xadd m (server s)) /\
        handled (trace s')
          = handled (trace s) ++ [(S (last_generated (server s)), m)] /\
        (c' = At (S (last_generated (server s))) \/ c' = c) /\
        (returns_always handler -> c' = At (S (last_generated (server s)))))).
Proof.
  iteration_cases handler bt d c s.
  - match goal with
    | |- context [process handler c ?e0 ?s0] =>
        destruct (process_delivery handler c e0 s0)
          as (c' & s' & Heq & Hsv & Hh & Hc & Hret)
    end.
    rewrite Heq. exists c', s'. split; [reflexivity |]. right. left.
    exists e. split; [reflexivity |]. split; [exact Hsv |]. split; [| auto].
    rewrite Hh. cbn [trace emits]. rewrite handled_app. cbn.
    now rewrite app_nil_r.
  - do 2 eexists. split; [reflexivity |]. left. cbn [trace emits server].
    rewrite handled_app. cbn. rewrite app_nil_r. auto.
  - match goal with
    | |- context [process handler c ?e0 ?s0] =>
        destruct (process_delivery handler c e0 s0)
          as (c' & s' & Heq & Hsv & Hh & Hc & Hret)
    end.
    rewrite Heq. exists c', s'. split; [reflexivity |]. right. right.
    exists m. split; [reflexivity |]. split; [reflexivity |].
    split; [exact Hsv |]. split; [| auto].
    rewrite Hh. cbn [trace emits with_server]. rewrite handled_app. cbn.
    now rewrite app_nil_r.
  - do 2 eexists. split; [reflexivity |]. left.
    cbn [trace emits server with_self with_server]. rewrite handled_app. cbn.
    rewrite app_nil_r. auto.
  - do 2 eexists. split; [reflexivity |]. left.
    cbn [trace emits server with_self]. rewrite handled_app. cbn.
    rewrite app_nil_r. auto.
  - do 2 eexists. split; [reflexivity |]. left.
    cbn [trace emits server]. rewrite handled_app. cbn.
    rewrite app_nil_r. auto.
Qed.

(** X4.  With a handler that always returns, a listener whose cursor is an
    identifier delivers the entries after it in stream order, none skipped
    and none twice, whatever the schedule: at any time, what it has
    delivered followed by what the stream holds after its cursor is what the
    stream holds after the cursor it began with. *)
Theorem listener_delivers_each_entry_once_in_order :
  forall (handler : Handler) (bt : Z) (i : entry_id) (sched : list tick)
         (s : sys),
    returns_always handler ->
    well_formed (server s) ->
    i <= last_generated (server s) ->
    exists st i' s' delivered,
      listen_loop handler bt sched (At i) s = (Ok (st, At i'), s') /\
      handled (trace s') = handled (trace s) ++ delivered /\
      delivered ++ after i' (entries (server s'))
        = after i (entries (server s')) /\
      well_formed (server s').
Proof.
  intros handler bt i sched s Hret Hwf Hi.
  destruct (listen_loop_invariant
              (fun c' s' =>
                 exists i' D,
                   c' = At i' /\ i <= i' /\
                   i' <= last_generated (server s') /\
                   well_formed (server s') /\
                   handled (trace s') = handled (trace s) ++ D /\
                   D ++ after i' (entries (server s'))
                     = after i (entries (server s')))
              handler bt) with (sched := sched) (c := At i) (s := s)
    as (st & c' & s' & Heq & (i' & D & -> & _ & _ & Hwf' & Hh & HD) & _).
  - (* the surroundings *)
    intros c0 s0 a (i' & D & -> & Hle & Hlg & Hwf0 & Hh & HD).
    destruct (well_formed_env s0 a Hwf0) as [Hwf1 Hmono].
    exists i', D. split; [reflexivity |]. split; [exact Hle |].
    split; [lia |]. split; [exact Hwf1 |].
    destruct (env_conn s0 a) as [_ ->]. split; [exact Hh |].
    destruct a as [m | b |]; [| exact HD | exact HD].
    cbn [env_apply with_server server server_xadd snd set_entries entries].
    rewrite !after_app, app_assoc, HD. f_equal.
    rewrite !after_all; [reflexivity | |]; constructor; cbn; try lia;
      constructor.
  - (* a pass *)
    intros c0 s0 d c1 s1 (i' & D & -> & Hle & Hlg & Hwf0 & Hh & HD) _ Hit.
    destruct (iteration_delivery handler bt d (At i') s0)
      as (c2 & s2 & Heq2 & Hcases).
    rewrite Hit in Heq2. inversion Heq2; subst c2 s2. clear Heq2.
    destruct Hcases as [(-> & He & Hg & Hh1)
                       | [(e & Hr & Hsv & Hh1 & _ & Hc1)
                         | (m & Hr & -> & Hsv & Hh1 & _ & Hc1)]].
    + exists i', D. split; [reflexivity |]. split; [exact Hle |].
      split; [lia |]. split.
      * destruct Hwf0 as [Hs Hb]. split; rewrite He, ?Hg; assumption.
      * rewrite Hh1, He. auto.
    + destruct (ready_after s0 (At i') e Hr) as [rest Hrest]. cbn in Hrest.
      assert (Hin : i' < fst e /\ In e (entries (server s0))).
      { apply after_In. rewrite Hrest. now left. }
      destruct Hwf0 as [Hs Hb].
      assert (Hbound : fst e <= last_generated (server s0)).
      { rewrite Forall_forall in Hb. apply Hb, Hin. }
      exists (fst e), (D ++ [e]). split; [apply Hc1, Hret |].
      split; [lia |]. rewrite Hsv. split; [exact Hbound |].
      split; [split; assumption |]. split.
      * rewrite Hh1, Hh. now rewrite app_assoc.
      * rewrite <- HD, Hrest, <- app_assoc. cbn.
        now rewrite (after_next _ _ _ _ Hs Hrest).
    + apply ready_none in Hr. cbn in Hr.
      exists (S (last_generated (server s0))),
             (D ++ [(S (last_generated (server s0)), m)]).
      split; [apply Hc1, Hret |]. split; [lia |].
      rewrite Hsv. split; [cbn; lia |].
      split; [now apply well_formed_xadd |]. split.
      * rewrite Hh1, Hh. now rewrite app_assoc.
      * cbn [server_xadd snd set_entries entries].
        rewrite !after_app, <- HD, Hr, app_nil_r, <- app_assoc. f_equal.
        rewrite (after_none (S (last_generated (server s0)))
                   (entries (server s0))).
        -- rewrite after_none by (constructor; [cbn; lia | constructor]).
           rewrite after_all by (constructor; [cbn; lia | constructor]).
           reflexivity.
        -- destruct Hwf0 as [_ Hb]. eapply Forall_impl; [| exact Hb].
           cbn. intros; lia.
  - exists i, []. split; [reflexivity |]. split; [lia |].
    split; [exact Hi |]. split; [exact Hwf |]. split.
    + now rewrite app_nil_r.
    + reflexivity.
  - exists st, i', s', D. auto.
Qed.

(** X5.  The listener never delivers an entry at or before its cursor,
    whatever the handler and the schedule.  With the cursor ["$"], which
    the listener starts with and keeps until a handler returns, no entry
    that was in the stream when the listener began is ever delivered. *)
Theorem listener_never_delivers_at_or_before_cursor :
  forall (handler : Handler) (bt : Z) (c : cursor) (sched : list tick)
         (s : sys),
    well_formed (server s) ->
    resolve (server s) c <= last_generated (server s) ->
    exists st c' s' delivered,
      listen_loop handler bt sched c s = (Ok (st, c'), s') /\
      handled (trace s') = handled (trace s) ++ delivered /\
      Forall (fun e : entry => resolve (server s) c < fst e) delivered /\
      (c = Dollar ->
       forall e, In e (entries (server s)) -> ~ In e delivered).
Proof.
  intros handler bt c sched s Hwf Hc.
  destruct (listen_loop_invariant
              (fun c' s' =>
                 resolve (server s) c <= resolve (server s') c' /\
                 resolve (server s') c' <= last_generated (server s') /\
                 well_formed (server s') /\
                 exists D,
                   handled (trace s') = handled (trace s) ++ D /\
                   Forall (fun e : entry => resolve (server s) c < fst e) D)
              handler bt) with (sched := sched) (c := c) (s := s)
    as (st & c' & s' & Heq & (_ & _ & _ & D & Hh & HD) & _).
  - intros c0 s0 a (Hle & Hlg & Hwf0 & D & Hh & HD).
    destruct (well_formed_env s0 a Hwf0) as [Hwf1 Hmono].
    destruct (env_conn s0 a) as [_ Ht].
    assert (Hres : resolve (server s0) c0
                   <= resolve (server (env_apply s0 a)) c0 /\
                   resolve (server (env_apply s0 a)) c0
                   <= last_generated (server (env_apply s0 a))).
    { destruct c0; cbn [resolve] in *; lia. }
    split; [lia |]. split; [lia |]. split; [exact Hwf1 |].
    exists D. rewrite Ht. auto.
  - intros c0 s0 d c1 s1 (Hle & Hlg & Hwf0 & D & Hh & HD) _ Hit.
    destruct (iteration_delivery handler bt d c0 s0)
      as (c2 & s2 & Heq2 & Hcases).
    rewrite Hit in Heq2. inversion Heq2; subst c2 s2. clear Heq2.
    destruct Hcases as [(-> & He & Hg & Hh1)
                       | [(e & Hr & Hsv & Hh1 & Hc1 & _)
                         | (m & Hr & -> & Hsv & Hh1 & Hc1 & _)]].
    + assert (Hres : resolve (server s1) c0 = resolve (server s0) c0)
        by (destruct c0; cbn [resolve]; congruence).
      rewrite Hres, Hg. split; [exact Hle |]. split; [exact Hlg |]. split.
      * destruct Hwf0 as [Hs Hb]. split; rewrite He, ?Hg; assumption.
      * exists D. rewrite Hh1. auto.
    + destruct (ready_after s0 c0 e Hr) as [rest Hrest].
      assert (Hin : resolve (server s0) c0 < fst e
                    /\ In e (entries (server s0))).
      { apply after_In. rewrite Hrest. now left. }
      assert (Hbound : fst e <= last_generated (server s0)).
      { destruct Hwf0 as [_ Hb]. rewrite Forall_forall in Hb.
        apply Hb, Hin. }
      rewrite Hsv.
      assert (Hres : resolve (server s) c <= resolve (server s0) c1 /\
                     resolve (server s0) c1 <= last_generated (server s0)).
      { destruct Hc1 as [-> | ->]; cbn [resolve]; lia. }
      split; [apply Hres |]. split; [apply Hres |]. split; [exact Hwf0 |].
      exists (D ++ [e]). split.
      * rewrite Hh1, Hh. now rewrite app_assoc.
      * apply Forall_app. split; [exact HD |].
        constructor; [lia | constructor].
    + rewrite Hsv.
      assert (Hres : resolve (server s) c
                     <= resolve (snd (server_xadd m (server s0))) c1 /\
                     resolve (snd (server_xadd m (server s0))) c1
                     <= last_generated (snd (server_xadd m (server s0)))).
      { destruct Hc1 as [-> | ->]; [cbn; lia |].
        destruct c0; cbn [resolve] in *; cbn; lia. }
      split; [apply Hres |]. split; [apply Hres |].
      split; [now apply well_formed_xadd |].
      exists (D ++ [(S (last_generated (server s0)), m)]). split.
      * rewrite Hh1, Hh. now rewrite app_assoc.
      * apply Forall_app. split; [exact HD |].
        constructor; [cbn; lia | constructor].
  - split; [lia |]. split; [exact Hc |]. split; [exact Hwf |].
    exists []. split; [now rewrite app_nil_r | constructor].
  - exists st, c', s', D. split; [exact Heq |]. split; [exact Hh |].
    split; [exact HD |].
    intros -> e He Hin. cbn [resolve] in HD.
    rewrite Forall_forall in HD. specialize (HD e Hin).
    destruct Hwf as [_ Hb]. rewrite Forall_forall in Hb.
    specialize (Hb e He). lia.
Qed.

Lemma quiet_S (n : nat) :
  quiet (S n) = {| before := []; during := Timeout |} :: quiet n.
Proof. reflexivity. Qed.

(** X6.  On a live connection, with a handler that always returns, each
    quiet pass delivers the next entry after the cursor: [n] passes deliver
    the first [n] entries that the stream holds after the cursor, in order,
    and the loop goes on. *)
Theorem listener_delivers_the_backlog :
  forall (handler : Handler) (bt : Z) (n : nat) (i : entry_id) (s : sys)
         (r : Redis),
    returns_always handler ->
    well_formed (server s) ->
    _redis_conn (self s) = Some r ->
    reachable (server s) = true ->
    _redis_listener_running (self s) = true ->
    exists i' s',
      listen_loop handler bt (quiet n) (At i) s = (Ok (Looping, At i'), s') /\
      handled (trace s')
        = handled (trace s) ++ firstn n (after i (entries (server s))) /\
      server s' = server s.
Proof.
  intros handler bt n. induction n as [| n IH];
    intros i s r Hret Hwf Hconn Hreach Hrun.
  - cbn [quiet repeat]. rewrite listen_loop_nil, Hrun.
    exists i, s. split; [reflexivity |]. cbn. now rewrite app_nil_r.
  - rewrite quiet_S, listen_loop_cons. cbn [before during fold_left].
    rewrite Hrun. destruct (ready s (At i)) as [e |] eqn:Hready.
    + rewrite (iteration_ready handler bt Timeout (At i) s r e Hconn Hreach
                 Hready).
      destruct (ready_after s (At i) e Hready) as [rest Hrest].
      cbn [resolve] in Hrest.
      pose proof (process_frame handler (At i) e
                    (emits [read_cmd (At i) bt] s)) as Hfr.
      pose proof (process_server handler (At i) e
                    (emits [read_cmd (At i) bt] s)) as [_ Hc1].
      destruct (process_delivery handler (At i) e
                  (emits [read_cmd (At i) bt] s))
        as (c' & s1 & Heq & Hsv & Hh & _ & Hc).
      rewrite Heq in Hfr, Hc1 |- *. cbn [snd] in Hfr, Hc1.
      rewrite (Hc Hret).
      apply frame_running in Hfr as [Hrun1 _].
      destruct (IH (fst e) s1 r Hret) as (i' & s' & Heq' & Hh' & Hsv');
        try (rewrite ?Hsv, ?Hrun1, ?Hc1; assumption).
      exists i', s'. split; [exact Heq' |]. split.
      * rewrite Hh', Hh, Hsv. cbn [trace emits server].
        rewrite handled_app. cbn [handled flat_map app]. rewrite app_nil_r.
        rewrite Hrest, <- app_assoc. cbn [firstn app].
        destruct Hwf as [Hs _].
        now rewrite (after_next _ _ _ _ Hs Hrest).
      * now rewrite Hsv', Hsv.
    + rewrite (iteration_timeout handler bt (At i) s r Hconn Hreach Hready).
      apply ready_none in Hready. cbn [resolve] in Hready.
      destruct (IH i (emits [read_cmd (At i) bt] s) r Hret Hwf Hconn Hreach
                  Hrun) as (i' & s' & Heq' & Hh' & Hsv').
      exists i', s'. split; [exact Heq' |]. split; [| exact Hsv'].
      rewrite Hh'. cbn [trace emits server]. rewrite handled_app.
      cbn [handled flat_map app]. rewrite app_nil_r, Hready.
      now rewrite !firstn_nil.
Qed.

(** X7.  A pass hands the handler one entry at most, since the read asks
    for one: over any schedule the listener makes no more handler calls
    than passes. *)
Theorem listener_delivers_one_entry_per_pass :
  forall (handler : Handler) (bt : Z) (sched : list tick) (c : cursor)
         (s : sys),
    exists st c' s',
      listen_loop handler bt sched c s = (Ok (st, c'), s') /\
      List.length (handled (trace s'))
        <= List.length (handled (trace s)) + List.length sched.
Proof.
  intros handler bt sched. induction sched as [| t sched IH]; intros c s.
  - rewrite listen_loop_nil. do 3 eexists. split; [reflexivity |]. cbn. lia.
  - rewrite listen_loop_cons.
    assert (Henv : trace (fold_left env_apply (before t) s) = trace s).
    { apply (env_invariant (fun x => trace x = trace s)); [| reflexivity].
      intros x a Hx. destruct (env_conn x a) as [_ ->]. exact Hx. }
    destruct (_redis_listener_running
                (self (fold_left env_apply (before t) s))).
    + destruct (iteration_delivery handler bt (during t) c
                  (fold_left env_apply (before t) s))
        as (c1 & s1 & Heq & Hcases).
      rewrite Heq.
      destruct (IH c1 s1) as (st & c' & s' & Heq' & Hlen).
      exists st, c', s'. split; [exact Heq' |].
      assert (Hone : List.length (handled (trace s1))
                     <= List.length (handled (trace s)) + 1).
      { rewrite <- Henv.
        destruct Hcases as [(_ & _ & _ & ->)
                           | [(e & _ & _ & -> & _)
                             | (m & _ & _ & _ & -> & _)]];
          rewrite ?length_app; cbn; lia. }
      cbn [List.length]. lia.
    + do 3 eexists. split; [reflexivity |]. rewrite Henv. cbn. lia.
Qed.

(** ** Publishing *)

Lemma redis_add_message_stream_live (m : message) (s : sys) (r : Redis) :
  m <> [] ->
  _redis_conn (self s) = Some r ->
  reachable (server s) = true ->
  redis_add_message_stream m s
    = (Ok (S (last_generated (server s))),
       with_server (fun _ => snd (server_xadd m (server s)))
         (emits [Log DEBUG (Add_message_stream m); Cmd (XADD stream_key m)] s)).
Proof.
  intros Hm Hc Hr. unfold redis_add_message_stream; unfold_M; cbn.
  rewrite Hc; cbn. destruct m as [| f m]; [contradiction |].
  cbn. rewrite Hr; cbn. now rewrite emits_emits.
Qed.

(** X8.  [redis_add_message_stream] never trims: on a live connection,
    publishing a list of messages, none of them empty, appends them all,
    in order and under consecutive identifiers, so the stream grows by
    their number whatever [query_list_capacity] is; the capacity is applied
    by [initialize_redis] only. *)
Theorem publishing_never_trims :
  forall (ms : list message) (s : sys) (r : Redis),
    Forall (fun m => m <> []) ms ->
    _redis_conn (self s) = Some r ->
    reachable (server s) = true ->
    entries (server (run s (publish_all ms)))
      = entries (server s)
        ++ combine (seq (S (last_generated (server s))) (List.length ms)) ms /\
    List.length (entries (server (run s (publish_all ms))))
      = List.length (entries (server s)) + List.length ms /\
    query_list_capacity (self (run s (publish_all ms)))
      = query_list_capacity (self s).
Proof.
  induction ms as [| m ms IH]; intros s r Hms Hc Hr.
  - cbn. rewrite app_nil_r. auto.
  - apply Forall_cons_iff in Hms as [Hm Hms].
    cbn [publish_all map run fold_left step].
    rewrite (redis_add_message_stream_live m s r Hm Hc Hr). cbn [snd].
    set (s1 := with_server (fun _ => snd (server_xadd m (server s)))
                 (emits [Log DEBUG (Add_message_stream m);
                         Cmd (XADD stream_key m)] s)).
    destruct (IH s1 r Hms Hc Hr) as (He & Hl & Hq).
    fold (publish_all ms). fold (run s1 (publish_all ms)).
    split; [| split].
    + rewrite He. cbn. now rewrite <- app_assoc.
    + rewrite Hl. cbn. rewrite length_app. cbn. lia.
    + rewrite Hq. reflexivity.
Qed.

(** ** Closing *)

(** X9.  After [redis_close] the handle is null, whatever it was, and the
    stream is untouched; a [CLOSE] is sent only if there was a connection.
    A publish after it fails with the [AttributeError] of a call on [None],
    and sends nothing. *)
Theorem redis_close_then_publish_fails :
  forall (s : sys) (m : message),
    fst (redis_close s) = Ok tt /\
    _redis_conn (self (snd (redis_close s))) = None /\
    server (snd (redis_close s)) = server s /\
    commands (trace (snd (redis_close s)))
      = commands (trace s)
        ++ match _redis_conn (self s) with
           | Some _ => [CLOSE]
           | None => []
           end /\
    fst (redis_add_message_stream m (snd (redis_close s)))
      = Raise xadd_on_None /\
    server (snd (redis_add_message_stream m (snd (redis_close s))))
      = server s /\
    commands (trace (snd (redis_add_message_stream m (snd (redis_close s)))))
      = commands (trace (snd (redis_close s))).
Proof.
  intros s m.
  assert (Hnone : forall x, _redis_conn (self x) = None ->
            redis_add_message_stream m x
              = (Raise xadd_on_None,
                 emits [Log DEBUG (Add_message_stream m)] x)).
  { intros x Hx. unfold redis_add_message_stream; unfold_M; cbn.
    now rewrite Hx. }
  rewrite redis_close_eq.
  destruct (_redis_conn (self s)) as [r |] eqn:Hc; cbn [fst snd].
  - rewrite Hnone by reflexivity. cbn [fst snd trace emits with_self server].
    unfold commands. rewrite !flat_map_app. cbn. rewrite !app_nil_r.
    repeat split; reflexivity.
  - rewrite Hnone by exact Hc. cbn [fst snd trace emits server].
    unfold commands. rewrite !flat_map_app. cbn. rewrite !app_nil_r.
    repeat split; auto.
Qed.


(** ** Stopping, then starting again *)

(** X11.  Whether the instance can listen again after
    [redis_stop_listening] depends on the wait: if the worker did not end
    within the timeout (it made no step, say), a later
    [redis_start_listening] only warns that the listener is already running
    and starts nothing; if it ended, as a worker that had begun its loop
    and goes on during the wait does, the call starts a new thread, which
    the instance then holds, alive, beside the ended one. *)
Theorem redis_start_listening_after_stop :
  forall (s : sys) (handler : option Handler) (tid : nat),
    _redis_listener_thread (self s) = Some tid ->
    alive_at tid s = true ->
    redis_start_listening handler (snd (redis_stop_listening None s))
      = (Ok tt,
         emits [Log WARNING Already_running]
           (snd (redis_stop_listening None s))) /\
    (forall wait : option (list tick),
       alive_at tid (snd (redis_stop_listening wait s)) = true ->
       redis_start_listening handler (snd (redis_stop_listening wait s))
         = (Ok tt,
            emits [Log WARNING Already_running]
              (snd (redis_stop_listening wait s)))) /\
    (forall wait : option (list tick),
       alive_at tid (snd (redis_stop_listening wait s)) = false ->
       redis_start_listening handler (snd (redis_stop_listening wait s))
         = (Ok tt, spawned handler (snd (redis_stop_listening wait s))) /\
       _redis_listener_thread
         (self (spawned handler (snd (redis_stop_listening wait s))))
         = Some (List.length (threads s)) /\
       alive_at (List.length (threads s))
         (spawned handler (snd (redis_stop_listening wait s))) = true /\
       alive_at tid (spawned handler (snd (redis_stop_listening wait s)))
         = false) /\
    (forall (sched : list tick) (th : thread),
       nth_error (threads s) tid = Some th ->
       begun th = true ->
       alive_at tid (snd (redis_stop_listening (Some sched) s)) = false).
Proof.
  intros s handler tid Htid Hal.
  assert (Hlt : tid < List.length (threads s)).
  { unfold alive_at in Hal. apply nth_error_Some.
    destruct (nth_error (threads s) tid); congruence. }
  assert (Hwarn : forall wait : option (list tick),
            alive_at tid (snd (redis_stop_listening wait s)) = true ->
            redis_start_listening handler (snd (redis_stop_listening wait s))
              = (Ok tt,
                 emits [Log WARNING Already_running]
                   (snd (redis_stop_listening wait s)))).
  { intros wait Ha.
    destruct (redis_stop_listening_threads wait s) as (_ & Hattr & _ & _).
    now rewrite redis_start_listening_eq, Hattr, Htid, Ha. }
  split; [| split; [exact Hwarn | split]].
  - apply Hwarn. rewrite redis_stop_listening_eq, Htid, Hal.
    cbn [snd waited]. rewrite !alive_at_emits. exact Hal.
  - intros wait Hd.
    destruct (redis_stop_listening_threads wait s) as (_ & Hattr & Hlen & _).
    rewrite redis_start_listening_eq, Hattr, Htid, Hd.
    split; [reflexivity |].
    unfold spawned, alive_at in *.
    cbn [self threads emits with_threads with_self _redis_listener_thread
         set_thread].
    rewrite Hlen. split; [reflexivity |]. split.
    + rewrite nth_error_app2 by lia.
      rewrite Hlen, Nat.sub_diag. reflexivity.
    + rewrite nth_error_app1 by lia. exact Hd.
  - intros sched th Hth Hb.
    assert (Ha : alive th = true)
      by (unfold alive_at in Hal; now rewrite Hth in Hal).
    now apply (redis_stop_listening_alive sched s tid th Htid Hth Ha).
Qed.

(** ** initialize_redis, again *)

(** X12.  [initialize_redis] catches connection errors only: another
    exception of [redis.Redis(...)] goes to the caller as it is, before any
    command is sent; the handle the instance had is kept, and the address
    attributes already hold the arguments of the call. *)
Theorem initialize_redis_passes_other_errors :
  forall (s : sys) (h : string) (p d : Z) (e : exn),
    ctor_fault s = Some e ->
    is_ConnectionError e = false ->
    fst (initialize_redis h p d s) = Raise e /\
    _redis_conn (self (snd (initialize_redis h p d s))) = _redis_conn (self s) /\
    commands (trace (snd (initialize_redis h p d s))) = commands (trace s) /\
    redis_host (self (snd (initialize_redis h p d s))) = Some h /\
    redis_port (self (snd (initialize_redis h p d s))) = Some p /\
    redis_db (self (snd (initialize_redis h p d s))) = Some d.
Proof.
  intros s h p d e Hc He. unfold initialize_redis; unfold_M; cbn.
  rewrite Hc; cbn. rewrite He; cbn.
  unfold commands. rewrite flat_map_app. cbn. rewrite app_nil_r.
  repeat split; reflexivity.
Qed.

(** X13.  Whatever its outcome, [initialize_redis] records the address it
    was given and touches neither the capacity nor the listener (flag,
    thread, event loop, threads).  When it returns, what it returns is the
    handle it has stored, a connection to that address: it never returns a
    null connection. *)
Theorem initialize_redis_records_the_address :
  forall (s : sys) (h : string) (p d : Z),
    redis_host (self (snd (initialize_redis h p d s))) = Some h /\
    redis_port (self (snd (initialize_redis h p d s))) = Some p /\
    redis_db (self (snd (initialize_redis h p d s))) = Some d /\
    query_list_capacity (self (snd (initialize_redis h p d s)))
      = query_list_capacity (self s) /\
    _redis_listener_running (self (snd (initialize_redis h p d s)))
      = _redis_listener_running (self s) /\
    _redis_listener_thread (self (snd (initialize_redis h p d s)))
      = _redis_listener_thread (self s) /\
    _redis_listener_loop (self (snd (initialize_redis h p d s)))
      = _redis_listener_loop (self s) /\
    threads (snd (initialize_redis h p d s)) = threads s /\
    (forall c, fst (initialize_redis h p d s) = Ok c ->
       c = _redis_conn (self (snd (initialize_redis h p d s))) /\
       c = Some {| host := h; port := p; db := d |}).
Proof.
  intros s h p d. unfold initialize_redis; unfold_M; cbn.
  assert (Hsplit : forall (A B : Prop), A -> B -> A /\ B) by (split; auto).
  destruct (ctor_fault s) as [[] |]; cbn;
    try (repeat (apply Hsplit; [reflexivity |]); intros c H; discriminate H).
  destruct (reachable (server s)) eqn:Hr; cbn;
    try (repeat (apply Hsplit; [reflexivity |]); intros c H; discriminate H).
  destruct (pong (server s)); cbn;
    destruct (query_list_capacity (self s) <? 0)%Z; cbn;
    rewrite ?Hr; cbn;
    repeat (apply Hsplit; [reflexivity |]); intros c H;
    try discriminate H; inversion H; subst; split; reflexivity.
Qed.

(** ** The default handler *)



(** * The further properties at work *)


Lemma worker_ends_on_stop_request_witness :
  fst (thread_run 0 (three_arrivals ++ stop_tick :: three_arrivals) listening)
    = Ok tt /\
  alive_at 0
    (snd (thread_run 0 (three_arrivals ++ stop_tick :: three_arrivals)
            listening)) = false /\
  _redis_listener_running
    (self (snd (thread_run 0 (three_arrivals ++ stop_tick :: three_arrivals)
                  listening))) = false /\
  List.length
    (threads (snd (thread_run 0 (three_arrivals ++ stop_tick :: three_arrivals)
                     listening)))
    = List.length (threads listening).
Proof.
  apply (worker_ends_on_stop_request 0 (new_thread None) three_arrivals
           stop_tick three_arrivals listening); reflexivity.
Defined.

Lemma well_formed_full_server : well_formed (server (at_work full_server)).
Proof.
  split; cbn.
  - repeat constructor; cbn; lia.
  - repeat constructor; cbn; lia.
Qed.

Lemma listener_delivers_each_entry_once_in_order_witness :
  exists st i' s' delivered,
    listen_loop redis_consume_message_stream 2000 three_arrivals (At 1)
      (at_work full_server) = (Ok (st, At i'), s') /\
    handled (trace s') = handled (trace (at_work full_server)) ++ delivered /\
    delivered ++ after i' (entries (server s'))
      = after 1 (entries (server s')) /\
    well_formed (server s').
Proof.
  apply (listener_delivers_each_entry_once_in_order
           redis_consume_message_stream 2000 1 three_arrivals
           (at_work full_server)).
  - intros hist m. reflexivity.
  - exact well_formed_full_server.
  - cbn. lia.
Defined.

Lemma listener_never_delivers_at_or_before_cursor_witness :
  exists st c' s' delivered,
    listen_loop (raises_on two boom) 2000 three_arrivals Dollar
      (at_work full_server) = (Ok (st, c'), s') /\
    handled (trace s') = handled (trace (at_work full_server)) ++ delivered /\
    Forall (fun e : entry => resolve (server (at_work full_server)) Dollar
                             < fst e) delivered /\
    (Dollar = Dollar ->
     forall e, In e (entries (server (at_work full_server))) ->
               ~ In e delivered).
Proof.
  apply (listener_never_delivers_at_or_before_cursor (raises_on two boom) 2000
           Dollar three_arrivals (at_work full_server)).
  - exact well_formed_full_server.
  - cbn. lia.
Defined.

Lemma listener_delivers_the_backlog_witness :
  exists i' s',
    listen_loop redis_consume_message_stream 2000 (quiet 2) (At 0)
      (at_work full_server) = (Ok (Looping, At i'), s') /\
    handled (trace s')
      = handled (trace (at_work full_server))
        ++ firstn 2 (after 0 (entries (server (at_work full_server)))) /\
    server s' = server (at_work full_server).
Proof.
  apply (listener_delivers_the_backlog redis_consume_message_stream 2000 2 0
           (at_work full_server) default_conn).
  - intros hist m. reflexivity.
  - exact well_formed_full_server.
  - reflexivity.
  - reflexivity.
  - reflexivity.
Defined.

(** With capacity 1, two publishes leave two entries. *)
Lemma publishing_never_trims_witness :
  entries (server (run small (publish_all [hello; world])))
    = entries (server small)
      ++ combine (seq (S (last_generated (server small))) 2) [hello; world] /\
  List.length (entries (server (run small (publish_all [hello; world]))))
    = List.length (entries (server small)) + 2 /\
  query_list_capacity (self (run small (publish_all [hello; world])))
    = query_list_capacity (self small).
Proof.
  apply (publishing_never_trims [hello; world] small default_conn);
    [repeat constructor; discriminate | reflexivity | reflexivity].
Defined.


(** The thread of the listener has begun its loop.  A stop request during
    which it makes no step leaves it alive, and a start then only warns; a
    stop request during which it goes on ends it, and a start then makes a
    second thread. *)
Lemma redis_start_listening_after_stop_witness :
  redis_start_listening None (snd (redis_stop_listening None listener_begun))
    = (Ok tt,
       emits [Log WARNING Already_running]
         (snd (redis_stop_listening None listener_begun))) /\
  redis_start_listening None
    (snd (redis_stop_listening (Some []) listener_begun))
    = (Ok tt,
       spawned None (snd (redis_stop_listening (Some []) listener_begun))) /\
  _redis_listener_thread
    (self (spawned None (snd (redis_stop_listening (Some []) listener_begun))))
    = Some 1 /\
  alive_at 1
    (spawned None (snd (redis_stop_listening (Some []) listener_begun)))
    = true /\
  alive_at 0
    (spawned None (snd (redis_stop_listening (Some []) listener_begun)))
    = false.
Proof.
  destruct (redis_start_listening_after_stop listener_begun None 0
              eq_refl eq_refl) as (Hnone & _ & Hdead & Hbegun).
  split; [exact Hnone |].
  apply (Hdead (Some [])).
  apply (Hbegun [] (set_progress Looping Dollar (new_thread None)));
    reflexivity.
Defined.

Lemma initialize_redis_passes_other_errors_witness :
  fst (initialize_redis default_host default_port default_db misconfigured)
    = Raise (Exception "ValueError" "invalid port") /\
  _redis_conn
    (self (snd (initialize_redis default_host default_port default_db
                  misconfigured))) = _redis_conn (self misconfigured) /\
  commands
    (trace (snd (initialize_redis default_host default_port default_db
                   misconfigured))) = commands (trace misconfigured) /\
  redis_host
    (self (snd (initialize_redis default_host default_port default_db
                  misconfigured))) = Some default_host /\
  redis_port
    (self (snd (initialize_redis default_host default_port default_db
                  misconfigured))) = Some default_port /\
  redis_db
    (self (snd (initialize_redis default_host default_port default_db
                  misconfigured))) = Some default_db.
Proof.
  apply (initialize_redis_passes_other_errors misconfigured default_host
           default_port default_db (Exception "ValueError" "invalid port"));
    reflexivity.
Defined.

Lemma initialize_redis_records_the_address_witness :
  Some default_conn
    = _redis_conn
        (self (snd (initialize_redis default_host default_port default_db
                      (fresh idle_server None)))) /\
  Some default_conn = Some default_conn.
Proof.
  exact (proj2 (proj2 (proj2 (proj2 (proj2 (proj2 (proj2 (proj2
           (initialize_redis_records_the_address (fresh idle_server None)
              default_host default_port default_db))))))))
           (Some default_conn) eq_refl).
Defined.
